(** * fetch-engine: resolution of the latest engine commit (getLatestTag.ts)

    A shallow embedding of [packages/fetch-engine/src/getLatestTag.ts]:
    the existence probe [urlExists], the sequential commit scan
    [getFirstExistingCommit], and the verification of the full artifact
    matrix in [getLatestTag].

    Conventions of the embedding.
    - An [async] function is a state-passing computation [M A]: it takes the
      state of the outside world and yields the state in which its promise
      is left together with the new world; [await] is the bind of [M].
    - A JavaScript value that may be [undefined] is an [option].
    - The network, the proxy lookup, the platform list and the URL builder of
      [./util] are collaborators of the module: they are the variables of
      [Section FetchEngine]. *)

From Stdlib Require Import ZArith Ascii.
From Stdlib Require String.
From stdpp Require Import base option list gmap strings.

Local Open Scope Z_scope.

(** ** JavaScript primitives used by the module *)

Module JS.

(** [Array.prototype.join]. *)
Definition join (sep : string) (l : list string) : string :=
  String.concat sep l.

(** White space and line terminators skipped by [parseInt], for the code
    units a header value can hold (Latin-1). *)
Definition isWhiteSpace (c : ascii) : bool :=
  let n := nat_of_ascii c in
  ((9 <=? n) && (n <=? 13) || (n =? 32) || (n =? 160))%nat.

Fixpoint trimStart (s : list ascii) : list ascii :=
  match s with
  | c :: s' => if isWhiteSpace c then trimStart s' else s
  | [] => []
  end.

(** The value of a character as a digit of the given radix. *)
Definition digitValue (radix : Z) (c : ascii) : option Z :=
  let n := Z.of_nat (nat_of_ascii c) in
  let v :=
    if (48 <=? n) && (n <=? 57) then Some (n - 48)
    else if (97 <=? n) && (n <=? 122) then Some (n - 87)
    else if (65 <=? n) && (n <=? 90) then Some (n - 55)
    else None in
  match v with
  | Some d => if d <? radix then Some d else None
  | None => None
  end.

(** Reads the longest prefix of digits; [acc] is [None] until a digit has
    been read. *)
Fixpoint readDigits (radix : Z) (acc : option Z) (s : list ascii) : option Z :=
  match s with
  | c :: s' =>
      match digitValue radix c with
      | Some d => readDigits radix (Some (default 0 acc * radix + d)) s'
      | None => acc
      end
  | [] => acc
  end.

Definition stripSign (s : list ascii) : Z * list ascii :=
  match s with
  | c :: s' =>
      if decide (c = "-"%char) then (-1, s')
      else if decide (c = "+"%char) then (1, s')
      else (1, s)
  | [] => (1, s)
  end.

Definition stripRadix (s : list ascii) : Z * list ascii :=
  match s with
  | c0 :: c1 :: s' =>
      if decide (c0 = "0"%char ∧ (c1 = "x"%char ∨ c1 = "X"%char))
      then (16, s') else (10, s)
  | _ => (10, s)
  end.

(** [parseInt(string)] with no radix argument; [None] is [NaN]. *)
Definition parseIntString (s : string) : option Z :=
  let '(sign, s1) := stripSign (trimStart (String.list_ascii_of_string s)) in
  let '(radix, s2) := stripRadix s1 in
  match readDigits radix None s2 with
  | Some n => Some (sign * n)
  | None => None
  end.

(** [parseInt(v)] where [v] is a string or [undefined]: the argument is
    first converted to a string. *)
Definition parseInt (v : option string) : option Z :=
  parseIntString (default "undefined" v).

(** The number a string of decimal digits denotes. *)
Definition decimal (s : list ascii) : Z :=
  foldl (λ acc c, acc * 10 + (Z.of_nat (nat_of_ascii c) - 48)) 0 s.

Definition isDecimalDigit (c : ascii) : Prop :=
  (48 ≤ nat_of_ascii c ≤ 57)%nat.

(** [x > 0] for a number that may be [NaN]. *)
Definition isPositive (x : option Z) : bool :=
  match x with
  | Some n => 0 <? n
  | None => false
  end.

End JS.

(** ** Promises and asynchronous computations *)

(** What a JavaScript [throw] can carry here: a value thrown by a
    collaborator, or an [Error] object built by the module. *)
Inductive JsError (Err : Type) : Type :=
  | Thrown (e : Err)
  | Error (message : string).
Arguments Thrown {Err} e.
Arguments Error {Err} message.

(** The state of a promise. *)
Inductive Promise (Err A : Type) : Type :=
  | Fulfilled (a : A)
  | Rejected (e : JsError Err)
  | Pending.
Arguments Fulfilled {Err A} a.
Arguments Rejected {Err A} e.
Arguments Pending {Err A}.

Inductive Method : Type := GET | HEAD.

(** A response of the transport: [entries] is [res.headers.entries()]. *)
Record Response : Type := mkResponse {
  status : Z;
  entries : list (string * string);
  body : string
}.

(** [fromEntries]: later entries overwrite earlier ones; an assignment to
    the key [__proto__] of a plain object creates no property. *)
Definition fromEntries (entries : list (string * string)) : gmap string string :=
  foldl (λ result kv,
           if decide (kv.1 = "__proto__") then result
           else <[kv.1 := kv.2]> result) ∅ entries.

(** One element of the array awaited by [getLatestTag]. *)
Record Asset : Type := mkAsset {
  downloadUrl : string;
  exists_ : bool
}.

Module GetLatestTag.

Section FetchEngine.

(** The outside world, the values collaborators throw, proxy agents. *)
Context {World Err Agent : Type}.

(** [getProxyAgent] of [./getProxyAgent]: an agent, or a throw. *)
Variable getProxyAgent : string → Err + Agent.
(** [fetch] of [node-fetch]: the request is answered by a response or by a
    rejection, and the world moves on. *)
Variable fetch : string → Method → Agent → World → (Err + Response) * World.
(** [res.json()] followed by [result.map((r) => r.sha)]. *)
Variable shasOfJson : string → Err + list string.
(** [platforms] of [@prisma/get-platform]. *)
Variable platforms : list string.
(** [getDownloadUrl] of [./util]: channel, version (possibly [undefined]),
    platform, binary name and the optional extension. *)
Variable getDownloadUrl :
  string → option string → string → string → option string → string.

(** What [console.error] received. *)
Inductive LogEntry : Type :=
  | LogResponse (res : Response) (headers : gmap string string)
  | LogError (e : JsError Err).

(** The state threaded through the module: the world, the console, and the
    history of probes (each URL handed to [urlExists] with the answer it
    got), kept for the statements about which probes ran. *)
Record State : Type := mkState {
  net : World;
  console : list LogEntry;
  probes : list (string * bool)
}.

Definition M (A : Type) : Type := State → Promise Err A * State.

Definition ret {A} (a : A) : M A := λ st, (Fulfilled a, st).
Definition throw {A} (e : JsError Err) : M A := λ st, (Rejected e, st).
Definition never {A} : M A := λ st, (Pending, st).

(** [await]. *)
Definition bind {A B} (m : M A) (k : A → M B) : M B :=
  λ st, match m st with
        | (Fulfilled a, st') => k a st'
        | (Rejected e, st') => (Rejected e, st')
        | (Pending, st') => (Pending, st')
        end.

(** [try { m } catch (e) { handler }]. *)
Definition try_catch {A} (m : M A) (handler : JsError Err → M A) : M A :=
  λ st, match m st with
        | (Rejected e, st') => handler e st'
        | r => r
        end.

Notation "'await' x ':=' m 'in' k" := (bind m (λ x, k))
  (at level 10, x name, m at level 100, k at level 200).

Definition console_error (entry : LogEntry) : M unit :=
  λ st, (Fulfilled (), mkState (net st) (console st ++ [entry]) (probes st)).

Definition recordProbe (url : string) (answer : bool) : M unit :=
  λ st, (Fulfilled (), mkState (net st) (console st) (probes st ++ [(url, answer)])).

(** [fetch(url, { method, agent: getProxyAgent(url) })]. *)
Definition fetchWithAgent (url : string) (method : Method) : M Response :=
  λ st, match getProxyAgent url with
        | inl e => (Rejected (Thrown e), st)
        | inr agent =>
            match fetch url method agent (net st) with
            | (inl e, w) => (Rejected (Thrown e), mkState w (console st) (probes st))
            | (inr res, w) => (Fulfilled res, mkState w (console st) (probes st))
            end
        end.

(** The body of the [try] block of [urlExists]: [Some b] when the block
    returns [b], [None] when control leaves the block at its end. *)
Definition urlExists_try (url : string) : M (option bool) :=
  await res := fetchWithAgent url HEAD in
  let headers := fromEntries (entries res) in
  await _ := (if 200 <? status res
              then console_error (LogResponse res headers)
              else ret ()) in
  if JS.isPositive (JS.parseInt (headers !! "content-length"))
  then ret (Some (status res <? 300))
  else ret None.

Definition urlExists (url : string) : M bool :=
  await returned :=
    try_catch (urlExists_try url)
              (λ e, await _ := console_error (LogError e) in ret None) in
  let answer := default false returned in
  await _ := recordProbe url answer in
  ret answer.

(** The reference artifact of a commit. *)
Definition referenceUrl (commit : string) : string :=
  getDownloadUrl "master" (Some commit) "darwin" "query-engine" None.

(** The [for] loop of [getFirstExistingCommit]; falling out of the loop
    the function returns [undefined]. *)
Fixpoint getFirstExistingCommit (commits : list string) : M (option string) :=
  match commits with
  | commit :: rest =>
      await exists' := urlExists (referenceUrl commit) in
      if exists' then ret (Some commit) else getFirstExistingCommit rest
  | [] => ret None
  end.

(** *** The verification phase of [getLatestTag] *)

Definition excludedPlatforms : list string :=
  ["freebsd"; "arm"; "linux-nixos"; "openbsd"; "netbsd"].

Definition relevantPlatforms : list string :=
  filter (λ p, p ∉ excludedPlatforms) platforms.

Definition engines : list string :=
  ["query-engine"; "introspection-engine"; "migration-engine"; "prisma-fmt"].

Definition extensions : list string :=
  [".gz"; ".gz.sha256"; ".gz.sig"; ".sig"; ".sha256"].

(** The (platform, engine, extension) triples in the order the three
    nested loops visit them. *)
Definition assetReferences : list (string * string * string) :=
  platform ← relevantPlatforms;
  engine ← engines;
  extension ← extensions;
  [(platform, engine, extension)].

Definition assetUrl (commit : option string) (ref : string * string * string) : string :=
  getDownloadUrl "master" commit ref.1.1 ref.1.2 (Some ref.2).

(** The [downloadUrl] of each task pushed by the loops, in push order. *)
Definition downloadUrls (commit : option string) : list string :=
  assetUrl commit <$> assetReferences.

(** [pick j x l] takes the element at position [j] out of the non-empty
    list [x :: l] (the last one when [j] is too large). *)
Fixpoint pick {A} (j : nat) (x : A) (l : list A) : A * list A :=
  match j, l with
  | S j', y :: l' => let '(z, r) := pick j' y l' in (z, x :: r)
  | _, _ => (x, l)
  end.

(** The queue is created with [new PQueue({ concurrency: 30 })] and every
    task goes through [queue.add]. When each task starts and which one
    completes next is decided by [p-queue] and the event loop, not by the
    module, so the model runs the tasks to completion one after the other in
    an order given from outside: [schedule] tells, at each step, the position
    among the tasks still waiting of the one that completes next (the first
    one when the schedule is exhausted). All orders are allowed, which
    includes those the queue admits. The completing task, added as
    [async () => ({ downloadUrl, exists: await urlExists(downloadUrl) })],
    fulfils the promise pushed at its own index. [n] counts the tasks still
    waiting. *)
Fixpoint runQueue (schedule : list nat) (n : nat)
    (waiting : list (nat * string)) (promises : list (option Asset))
    : M (list (option Asset)) :=
  match n, waiting with
  | S n', task :: others =>
      let '((i, url), waiting') := pick (hd 0%nat schedule) task others in
      await exists' := urlExists url in
      runQueue (tl schedule) n' waiting'
               (<[i := Some (mkAsset url exists')]> promises)
  | _, _ => ret promises
  end.

(** [await Promise.all(promises)]: the values in the order of the promises
    once all are fulfilled; while one is not, the [await] does not
    resume. A promise of the array is pending ([None]) or fulfilled: were a
    task to throw, [runQueue] already hands the rejection on. *)
Definition promiseAll (promises : list (option Asset)) : M (list Asset) :=
  match mapM id promises with
  | Some values => ret values
  | None => never
  end.

(** Lines 14 to 61: the queue, the loops and the join. *)
Definition verify (schedule : list nat) (commit : option string) : M (list Asset) :=
  let urls := downloadUrls commit in
  let promises := replicate (length urls) None in
  await settled :=
    runQueue schedule (length urls) (zip (seq 0 (length urls)) urls) promises in
  promiseAll settled.

Definition missingAssets (exist : list Asset) : list Asset :=
  filter (λ e, exists_ e = false) exist.

Definition missingMessage (missing : list Asset) : string :=
  "Could not get new tag, as some assets don't exist: "
    +:+ JS.join ", " (downloadUrl <$> missing).

(** Lines 63 to 72. *)
Definition aggregate (commit : option string) (exist : list Asset) : M (option string) :=
  let missing := missingAssets exist in
  if (0 <? length missing)%nat
  then throw (Error (missingMessage missing))
  else ret commit.

Definition commitsUrl : string :=
  "https://api.github.com/repos/prisma/prisma-engines/commits".

(** Lines 8 to 12. *)
Definition fetchCommits : M (list string) :=
  await res := fetchWithAgent commitsUrl GET in
  match shasOfJson (body res) with
  | inl e => throw (Thrown e)
  | inr commits => ret commits
  end.

Definition getLatestTag (schedule : list nat) : M (option string) :=
  await commits := fetchCommits in
  await commit := getFirstExistingCommit commits in
  await exist := verify schedule commit in
  aggregate commit exist.

End FetchEngine.

End GetLatestTag.

Import GetLatestTag.

(** ** The URL builder *)

Module Util.

(** Modelled from the spec: [getDownloadUrl] of [./util], whose source file
    is not available. The spec gives the shape of its result,
    [<host>/<repo>/<branch>/<commit>/<platform>/<binary>.<extension>]. *)
Definition buildURL (host repo : string)
    (branch commit platform binary extension : string) : string :=
  host +:+ "/" +:+ repo +:+ "/" +:+ branch +:+ "/" +:+ commit +:+ "/"
    +:+ platform +:+ "/" +:+ binary +:+ "." +:+ extension.

(** The input of the builder. *)
Record AssetReference : Type := mkAssetReference {
  branch : string;
  commit : string;
  platform : string;
  binary : string;
  extension : string
}.

Definition urlOf (host repo : string) (t : AssetReference) : string :=
  buildURL host repo (branch t) (commit t) (platform t) (binary t) (extension t).

Definition occurs (c : ascii) (s : string) : Prop :=
  c ∈ String.list_ascii_of_string s.

(** A valid tuple: the commit (a hash), the platform, the binary name and
    the extension are single path segments, and the binary name has no dot
    of its own. The branch is any string. *)
Definition valid (t : AssetReference) : Prop :=
  ¬ occurs "/" (commit t) ∧ ¬ occurs "/" (platform t)
  ∧ ¬ occurs "/" (binary t) ∧ ¬ occurs "." (binary t)
  ∧ ¬ occurs "/" (extension t).

End Util.

(** ** A small world to run the module in *)

Module Fixture.

Definition host : string := "https://binaries.example.com".
Definition repo : string := "engines".

Definition dropDot (extension : string) : string :=
  match extension with
  | String "." rest => rest
  | _ => extension
  end.

(** The builder of [Util] behind the calling convention of the module: an
    [undefined] version is rendered the way string concatenation renders
    it, an omitted extension is [.gz], and the dot the callers put in front
    of an extension is the dot of the layout. *)
Definition getDownloadUrl (channel : string) (version : option string)
    (platform binaryName : string) (extension : option string) : string :=
  Util.buildURL host repo channel (default "undefined" version)
                platform binaryName (dropDot (default ".gz" extension)).

Definition platforms : list string := ["darwin"; "freebsd"; "windows"].

Definition getProxyAgent (url : string) : string + unit := inr ().

Definition shasOfJson (body : string) : string + list string :=
  inr (String.words body).

(** The world counts the requests it served. [published] lists the URLs
    that answer 200 with a body; every other artifact URL answers 404. *)
Definition fetch (commits : string) (published : list string)
    (url : string) (method : Method) (agent : unit) (w : nat)
    : (string + Response) * nat :=
  match method with
  | GET => (inr (mkResponse 200 [("content-type", "application/json")] commits), S w)
  | HEAD =>
      if decide (url ∈ published)
      then (inr (mkResponse 200 [("content-length", "1024")] ""), S w)
      else (inr (mkResponse 404 [("content-length", "0")] ""), S w)
  end.

(** A transport whose every request fails. *)
Definition offline (url : string) (method : Method) (agent : unit) (w : nat)
    : (string + Response) * nat :=
  (inl "ECONNREFUSED", S w).

(** A transport that answers every request with the same response. *)
Definition serve (res : Response) (url : string) (method : Method)
    (agent : unit) (w : nat) : (string + Response) * nat :=
  (inr res, S w).

(** A proxy lookup that throws. *)
Definition noAgent (url : string) : string + unit := inl "EPROXY".

Definition start : State (World := nat) (Err := string) := mkState 0%nat [] [].

(** Everything of commit [c2] is published, and the reference artifact of
    [c3]; nothing of [c1]. *)
Definition allOfC2 : list string :=
  getDownloadUrl "master" (Some "c3") "darwin" "query-engine" None
    :: downloadUrls platforms getDownloadUrl (Some "c2").

(** As [allOfC2], but two artifacts of [c2] are absent. *)
Definition partOfC2 : list string :=
  filter (λ url, url ∉ [getDownloadUrl "master" (Some "c2") "windows" "prisma-fmt" (Some ".sig");
                        getDownloadUrl "master" (Some "c2") "darwin" "migration-engine" (Some ".gz")])
         allOfC2.

End Fixture.

(** ** cli: the check of a schema against the database (Doctor.ts)

    The part of [Doctor.parse] that compares the models of the local schema
    with the models introspected from the database, and
    [printModelMessage]. The models are given: reading the schema, the
    connection test and the introspection, which come before, are calls to
    other packages. *)

Module Field.
(** The properties of a [DMMF.Field] the comparison reads. *)
Record t : Type := mk {
  name : string;
  dbNames : option (list string);
  type : string;
  isList : bool
}.
End Field.

Module Model.
(** The properties of a [DMMF.Model] the comparison reads. *)
Record t : Type := mk {
  name : string;
  dbName : option string;
  fields : list Field.t
}.
End Model.

Module Doctor.

(** The line feed of the template strings. *)
Definition nl : string := String "010"%char "".

Section Doctor.

(** The values collaborators throw. *)
Context {Err : Type}.

(** [keyBy] of [@prisma/sdk]: the object it returns, read at a key. *)
Variable keyBy : ∀ T : Type, list T → (T → string) → string → option T.
(** [pick] of [@prisma/sdk] and [equal] of [fast-deep-equal]. *)
Context {Picked : Type}.
Variable pick : Field.t → list string → Picked.
Variable equal : Picked → Picked → bool.
(** The styles of [chalk]: [bold.underline], [bold], [greenBright] and
    [redBright]. *)
Variable bold_underline bold greenBright redBright : string → string.

(** [m.dbName ?? m.name], the key of a model. *)
Definition modelKey (m : Model.t) : string :=
  default (Model.name m) (Model.dbName m).

Definition getFieldName (f : Field.t) : string :=
  match Field.dbNames f with
  | Some (n :: _) => n
  | _ => Field.name f
  end.

Definition printField (f : Field.t) : string :=
  Field.name f +:+ (if Field.isList f then "[]" else "").

Definition printModelMessage (model : Model.t) (missingModel : bool)
    (missingFields : list Field.t)
    (incorrectFieldType : list (Field.t * Field.t)) : option string :=
  if negb missingModel
     && (length missingFields =? 0)%nat
     && (length incorrectFieldType =? 0)%nat
  then None
  else
    let msg := bold_underline (Model.name model) +:+ nl in
    let msg :=
      if missingModel then msg +:+ "↪ Model is missing in database" +:+ nl
      else msg in
    let msg :=
      foldl (λ msg field,
               msg +:+ "↪ Field " +:+ bold (Field.name field)
                   +:+ " is missing in database" +:+ nl)
            msg missingFields in
    let msg :=
      foldl (λ msg pair,
               let localField := pair.1 in
               let remoteField := pair.2 in
               msg +:+ "↪ Field " +:+ Field.name localField +:+ " has type "
                   +:+ greenBright (Field.type localField +:+ printField localField)
                   +:+ " locally, but " +:+ redBright (printField remoteField)
                   +:+ " remote")
            msg incorrectFieldType in
    Some msg.

(** The body of the loop over the fields of a local model (lines 99 to
    111), on the two arrays it pushes to. *)
Definition checkField (remoteFields : string → option Field.t)
    (acc : list Field.t * list (Field.t * Field.t)) (localField : Field.t)
    : list Field.t * list (Field.t * Field.t) :=
  let '(missingFields, incorrectFieldType) := acc in
  match remoteFields (getFieldName localField) with
  | None => (missingFields ++ [localField], incorrectFieldType)
  | Some remoteField =>
      if negb (equal (pick localField ["type"; "isList"])
                     (pick remoteField ["type"; "isList"]))
      then (missingFields, incorrectFieldType ++ [(localField, remoteField)])
      else (missingFields, incorrectFieldType)
  end.

(** The body of the loop over the pairs of models (lines 90 to 122): the
    message of the pair, [None] when it is [null]. *)
Definition checkModel (localModel : Model.t) (remoteModel : option Model.t)
    : option string :=
  match remoteModel with
  | None => printModelMessage localModel true [] []
  | Some remoteModel =>
      let remoteFields := keyBy _ (Model.fields remoteModel) getFieldName in
      let '(missingFields, incorrectFieldType) :=
        foldl (checkField remoteFields) ([], []) (Model.fields localModel) in
      printModelMessage localModel false missingFields incorrectFieldType
  end.

(** A string or [null] as a condition. *)
Definition truthy (msg : option string) : bool :=
  match msg with
  | Some (String _ _) => true
  | _ => false
  end.

(** Lines 74 to 129 of [parse], from the models of the two schemas. *)
Definition compareModels (localModels remoteModels : list Model.t)
    : Promise Err string :=
  let remoteModels := keyBy _ remoteModels modelKey in
  let modelPairs :=
    (λ localModel, (localModel, remoteModels (modelKey localModel)))
      <$> localModels in
  let messages :=
    foldl (λ messages pair,
             let msg := checkModel pair.1 pair.2 in
             if truthy msg then messages ++ [default "" msg] else messages)
          [] modelPairs in
  if (0 <? length messages)%nat
  then Rejected (Error (nl +:+ nl +:+ JS.join (nl +:+ nl) messages))
  else Fulfilled "Everything in sync 🔄".

End Doctor.

(** [keyBy] as a loop of assignments, for the examples. *)
Definition keyByLast (T : Type) (l : list T) (f : T → string) (k : string)
    : option T :=
  last (filter (λ x, f x = k) l).

(** [pick] and [equal] on the two properties compared, for the examples. *)
Definition pickTypeIsList (f : Field.t) (keys : list string) : string * bool :=
  (Field.type f, Field.isList f).

Definition equalPair (x y : string * bool) : bool := bool_decide (x = y).

(** [chalk] with colours off. *)
Definition plain (s : string) : string := s.

(** A schema of two models, and a database in which the table of the first
    has a column of another type and lacks a column, and the table of the
    second does not exist. *)
Definition localUser : Model.t :=
  Model.mk "User" None
    [Field.mk "id" None "Int" false;
     Field.mk "email" (Some ["email_address"]) "String" false;
     Field.mk "tags" (Some []) "String" true].

Definition localPost : Model.t :=
  Model.mk "Post" (Some "posts") [Field.mk "id" None "Int" false].

Definition remoteUser : Model.t :=
  Model.mk "User" None
    [Field.mk "id" None "String" false;
     Field.mk "email_address" None "String" false;
     Field.mk "legacy" None "Int" false].

Definition remoteAudit : Model.t :=
  Model.mk "Audit" None [Field.mk "id" None "Int" false].

End Doctor.

(** ** Notions used in the statements *)

(** The header [urlExists] reads off a response. *)
Definition contentLength (res : Response) : option string :=
  fromEntries (entries res) !! "content-length".

(** The answer of [urlExists] to a response. *)
Definition answerTo (res : Response) : bool :=
  JS.isPositive (JS.parseInt (contentLength res)) && (status res <? 300).

(** The probe recorded for an element of the awaited array. *)
Definition probeOf (a : Asset) : string * bool := (downloadUrl a, exists_ a).

(** The answer held by the promise at index [i], if it is fulfilled. *)
Definition flagAt (promises : list (option Asset)) (i : nat) : bool :=
  match promises !! i with
  | Some (Some a) => exists_ a
  | _ => false
  end.

(** The entry a failed probe of a commit's reference artifact leaves in the
    history. *)
Definition failedProbe
    (getDownloadUrl : string → option string → string → string → option string → string)
    (commit : string) : string * bool :=
  (referenceUrl getDownloadUrl commit, false).

(** The answers of the probe do not depend on the state of the world. *)
Definition stableAnswers {World Err Agent : Type}
    (getProxyAgent : string → Err + Agent)
    (fetch : string → Method → Agent → World → (Err + Response) * World) : Prop :=
  ∀ url (s s' : State (World := World) (Err := Err)),
    (urlExists getProxyAgent fetch url s).1 = (urlExists getProxyAgent fetch url s').1.

(** The probe answers [answer url] to every URL, whatever the state. *)
Definition answersAs {World Err Agent : Type}
    (getProxyAgent : string → Err + Agent)
    (fetch : string → Method → Agent → World → (Err + Response) * World)
    (answer : string → bool) : Prop :=
  ∀ url (s : State (World := World) (Err := Err)),
    (urlExists getProxyAgent fetch url s).1 = Fulfilled (answer url).

(** What [getLatestTag] amounts to over a transport whose answers are given by
    [answer]: the first commit whose reference artifact is there, provided
    none of its assets is absent. *)
Definition expectedTag {Err : Type} (platforms : list string)
    (getDownloadUrl : string → option string → string → string → option string → string)
    (answer : string → bool) (commits : list string)
    : Promise Err (option string) :=
  let commit := List.find (λ c, answer (referenceUrl getDownloadUrl c)) commits in
  let absent := filter (λ url, answer url = false)
                       (downloadUrls platforms getDownloadUrl commit) in
  match absent with
  | [] => Fulfilled commit
  | _ :: _ =>
      Rejected (Error ("Could not get new tag, as some assets don't exist: "
                       +:+ JS.join ", " absent))
  end.

Module Report.

(** The text [printModelMessage] adds for a missing field and for a field
    of a different type. *)
Definition missingFieldLine (bold : string → string) (field : Field.t) : string :=
  "↪ Field " +:+ bold (Field.name field) +:+ " is missing in database" +:+ Doctor.nl.

Definition incorrectFieldText (greenBright redBright : string → string)
    (pair : Field.t * Field.t) : string :=
  "↪ Field " +:+ Field.name pair.1 +:+ " has type "
    +:+ greenBright (Field.type pair.1 +:+ Doctor.printField pair.1)
    +:+ " locally, but " +:+ redBright (Doctor.printField pair.2) +:+ " remote".

(** The counterpart of a local field among the remote fields, when the two
    differ in what [pick] keeps. *)
Definition differingField {Picked : Type} (pick : Field.t → list string → Picked)
    (equal : Picked → Picked → bool) (remoteFields : string → option Field.t)
    (localField : Field.t) : option (Field.t * Field.t) :=
  match remoteFields (Doctor.getFieldName localField) with
  | Some remoteField =>
      if equal (pick localField ["type"; "isList"])
               (pick remoteField ["type"; "isList"])
      then None else Some (localField, remoteField)
  | None => None
  end.

(** A local model is in sync with the remote models: it has a counterpart,
    and each of its fields has a counterpart there that [equal] accepts. *)
Definition inSync {Picked : Type}
    (keyBy : ∀ T : Type, list T → (T → string) → string → option T)
    (pick : Field.t → list string → Picked) (equal : Picked → Picked → bool)
    (remoteModels : list Model.t) (localModel : Model.t) : Prop :=
  ∃ remoteModel,
    keyBy _ remoteModels Doctor.modelKey (Doctor.modelKey localModel)
    = Some remoteModel
    ∧ ∀ localField, localField ∈ Model.fields localModel →
        ∃ remoteField,
          keyBy _ (Model.fields remoteModel) Doctor.getFieldName
                (Doctor.getFieldName localField) = Some remoteField
          ∧ equal (pick localField ["type"; "isList"])
                  (pick remoteField ["type"; "isList"]) = true.

End Report.

(** * Properties *)

Example parseInt_1234 : JS.parseInt (Some "1234") = Some 1234.
Proof. reflexivity. Qed.
Example parseInt_zero : JS.parseInt (Some "0") = Some 0.
Proof. reflexivity. Qed.
Example parseInt_spaces : JS.parseInt (Some "  42 ") = Some 42.
Proof. reflexivity. Qed.
Example parseInt_suffix : JS.parseInt (Some "12abc") = Some 12.
Proof. reflexivity. Qed.
Example parseInt_negative : JS.parseInt (Some "-7") = Some (-7).
Proof. reflexivity. Qed.
Example parseInt_hex : JS.parseInt (Some "0x1F") = Some 31.
Proof. reflexivity. Qed.
Example parseInt_empty : JS.parseInt (Some "") = None.
Proof. reflexivity. Qed.
Example parseInt_undefined : JS.parseInt None = None.
Proof. reflexivity. Qed.
Example parseInt_hex_prefix_only : JS.parseInt (Some "0x") = None.
Proof. reflexivity. Qed.
Example join_three : JS.join ", " ["a"; "b"; "c"] = "a, b, c".
Proof. reflexivity. Qed.

(** ** [parseInt] on what a [content-length] header normally holds *)

Lemma digitValue_decimal (c : ascii) :
  JS.isDecimalDigit c →
  JS.digitValue 10 c = Some (Z.of_nat (nat_of_ascii c) - 48).
Proof.
  unfold JS.isDecimalDigit, JS.digitValue. intros Hc.
  destruct (48 <=? Z.of_nat (nat_of_ascii c)) eqn:H1; [|lia].
  destruct (Z.of_nat (nat_of_ascii c) <=? 57) eqn:H2; [|lia].
  simpl. destruct (Z.of_nat (nat_of_ascii c) - 48 <? 10) eqn:H3; [done|lia].
Qed.

Lemma readDigits_decimal (s : list ascii) (acc : option Z) :
  Forall JS.isDecimalDigit s → s ≠ [] →
  JS.readDigits 10 acc s
  = Some (foldl (λ acc c, acc * 10 + (Z.of_nat (nat_of_ascii c) - 48))
                (default 0 acc) s).
Proof.
  revert acc. induction s as [|c s IH]; intros acc Hs Hne; [done|].
  apply Forall_cons in Hs as [Hc Hs].
  simpl. rewrite digitValue_decimal by done.
  destruct s as [|c' s]; [done|]. by rewrite IH.
Qed.

(** A non-empty string of decimal digits parses to the number it denotes. *)
Lemma parseInt_decimal (s : string) :
  s ≠ "" →
  Forall JS.isDecimalDigit (String.list_ascii_of_string s) →
  JS.parseInt (Some s) = Some (JS.decimal (String.list_ascii_of_string s)).
Proof.
  intros Hne Hs. unfold JS.parseInt, JS.parseIntString. simpl.
  destruct s as [|c s]; [done|]. simpl in *.
  pose proof Hs as Hall.
  apply Forall_cons in Hs as [Hc Hs]. unfold JS.isDecimalDigit in Hc.
  assert (JS.isWhiteSpace c = false) as ->.
  { unfold JS.isWhiteSpace. simpl.
    repeat match goal with
           | |- context [(?a <=? ?b)%nat] => destruct (Nat.leb_spec a b)
           | |- context [(?a =? ?b)%nat] => destruct (Nat.eqb_spec a b)
           end; simpl; try done; lia. }
  unfold JS.stripSign.
  assert (c ≠ "-"%char ∧ c ≠ "+"%char) as [Hm Hp]
    by (split; intros ->; vm_compute in Hc; lia).
  rewrite !decide_False by done.
  assert (JS.stripRadix (c :: String.list_ascii_of_string s)
          = (10, c :: String.list_ascii_of_string s)) as ->.
  { unfold JS.stripRadix. destruct (String.list_ascii_of_string s) as [|c1 s1]; [done|].
    rewrite decide_False; [done|]. intros [_ [->| ->]].
    - apply Forall_cons in Hs as [Hx _]. vm_compute in Hx. lia.
    - apply Forall_cons in Hs as [Hx _]. vm_compute in Hx. lia. }
  rewrite readDigits_decimal by done.
  f_equal. unfold JS.decimal. simpl. lia.
Qed.

Section FetchEngineFacts.

Context {World Err Agent : Type}.
Variable getProxyAgent : string → Err + Agent.
Variable fetch : string → Method → Agent → World → (Err + Response) * World.
Variable shasOfJson : string → Err + list string.
Variable platforms : list string.
Variable getDownloadUrl :
  string → option string → string → string → option string → string.

Local Abbreviation State := (@State World Err).
Local Abbreviation urlExists := (urlExists getProxyAgent fetch).
Local Abbreviation referenceUrl := (referenceUrl getDownloadUrl).
Local Abbreviation failedProbe := (failedProbe getDownloadUrl).
Local Abbreviation getFirstExistingCommit :=
  (getFirstExistingCommit getProxyAgent fetch getDownloadUrl).
Local Abbreviation relevantPlatforms := (relevantPlatforms platforms).
Local Abbreviation assetReferences := (assetReferences platforms).
Local Abbreviation assetUrl := (assetUrl getDownloadUrl).
Local Abbreviation downloadUrls := (downloadUrls platforms getDownloadUrl).
Local Abbreviation runQueue := (runQueue getProxyAgent fetch).
Local Abbreviation verify := (verify getProxyAgent fetch platforms getDownloadUrl).
Local Abbreviation fetchCommits := (fetchCommits getProxyAgent fetch shasOfJson).
Local Abbreviation getLatestTag :=
  (getLatestTag getProxyAgent fetch shasOfJson platforms getDownloadUrl).

(** *** The existence probe *)

Lemma fromEntries_app (l1 l2 : list (string * string)) :
  fromEntries (l1 ++ l2)
  = foldl (λ result kv,
             if decide (kv.1 = "__proto__") then result
             else <[kv.1 := kv.2]> result) (fromEntries l1) l2.
Proof. unfold fromEntries. by rewrite foldl_app. Qed.

(** A header that is not among the entries is [undefined]. *)
Lemma fromEntries_absent (l : list (string * string)) (k : string) :
  k ∉ l.*1 → fromEntries l !! k = None.
Proof.
  induction l as [|[k' v] l IH] using rev_ind; intros Hk; [done|].
  rewrite fmap_app, not_elem_of_app in Hk. destruct Hk as [Hl Hk'].
  rewrite fromEntries_app. simpl. case_decide; [by apply IH|].
  rewrite lookup_insert_ne; [by apply IH|].
  intros ->. apply Hk'. simpl. left.
Qed.

(** The last entry of a name is the one that is read. *)
Lemma fromEntries_last (l : list (string * string)) (k v : string) :
  k ≠ "__proto__" → fromEntries (l ++ [(k, v)]) !! k = Some v.
Proof.
  intros Hk. rewrite fromEntries_app. simpl.
  case_decide; [done|]. by rewrite lookup_insert_eq.
Qed.

(** What one call of [urlExists] does, case by case. *)
Lemma urlExists_run (url : string) (st : State) :
  urlExists url st =
  match getProxyAgent url with
  | inl e =>
      (Fulfilled false,
       mkState (net st) (console st ++ [LogError (Thrown e)])
               (probes st ++ [(url, false)]))
  | inr agent =>
      match fetch url HEAD agent (net st) with
      | (inl e, w) =>
          (Fulfilled false,
           mkState w (console st ++ [LogError (Thrown e)])
                   (probes st ++ [(url, false)]))
      | (inr res, w) =>
          (Fulfilled (answerTo res),
           mkState w
             (console st ++
                if 200 <? status res
                then [LogResponse res (fromEntries (entries res))] else [])
             (probes st ++ [(url, answerTo res)]))
      end
  end.
Proof.
  unfold GetLatestTag.urlExists, urlExists_try, try_catch, bind, fetchWithAgent,
    answerTo, contentLength.
  destruct (getProxyAgent url) as [e|agent]; simpl; [done|].
  destruct (fetch url HEAD agent (net st)) as [[e|res] w]; simpl; [done|].
  destruct (200 <? status res); simpl;
    destruct (JS.isPositive _); simpl; by rewrite ?app_nil_r.
Qed.

(** The probe always answers, and leaves one entry in the history. *)
Lemma urlExists_answers (url : string) (st : State) :
  ∃ b st', urlExists url st = (Fulfilled b, st')
           ∧ probes st' = probes st ++ [(url, b)].
Proof.
  rewrite urlExists_run.
  destruct (getProxyAgent url) as [e|agent]; [by eauto|].
  destruct (fetch url HEAD agent (net st)) as [[e|res] w]; by eauto.
Qed.

(** *** The commit scan *)

(** The scan always completes. *)
Lemma getFirstExistingCommit_fulfils (commits : list string) (st : State) :
  ∃ commit st', getFirstExistingCommit commits st = (Fulfilled commit, st').
Proof.
  revert st. induction commits as [|c commits IH]; intros st; [by eauto|].
  destruct (urlExists_answers (referenceUrl c) st) as (b & st1 & Hrun & _).
  cbn [GetLatestTag.getFirstExistingCommit]. unfold bind. rewrite Hrun.
  destruct b; [by eauto|]. apply IH.
Qed.

(** *** The queue *)

Lemma pick_Permutation {A} (j : nat) (x : A) (l : list A) :
  x :: l ≡ₚ (pick j x l).1 :: (pick j x l).2.
Proof.
  revert x j. induction l as [|y l IH]; intros x [|j]; simpl; try done.
  specialize (IH y j). destruct (pick j y l) as [z r]; simpl in *.
  rewrite IH. apply Permutation_swap.
Qed.

Lemma flagAt_insert (promises : list (option Asset)) (i : nat) (a : Asset) :
  (i < length promises)%nat →
  flagAt (<[i := Some a]> promises) i = exists_ a.
Proof. intros Hi. unfold flagAt. by rewrite list_lookup_insert_eq. Qed.

(** Running the queue fulfils the promise of every waiting task with the
    answer of one probe of its URL, and touches no other promise. *)
Lemma runQueue_run (P : string → bool → Prop) (n : nat) :
  (∀ url s b s', urlExists url s = (Fulfilled b, s') → P url b) →
  ∀ (schedule : list nat) (waiting : list (nat * string))
    (promises : list (option Asset)) (st : State),
    length waiting = n →
    NoDup waiting.*1 →
    (∀ t, t ∈ waiting → promises !! t.1 = Some None) →
    ∃ promises' st',
      runQueue schedule n waiting promises st = (Fulfilled promises', st')
      ∧ length promises' = length promises
      ∧ (∀ i, i ∉ waiting.*1 → promises' !! i = promises !! i)
      ∧ (∀ t, t ∈ waiting →
              promises' !! t.1 = Some (Some (mkAsset t.2 (flagAt promises' t.1)))
              ∧ P t.2 (flagAt promises' t.1))
      ∧ ∃ new, probes st' = probes st ++ new
               ∧ new ≡ₚ (λ t, (t.2, flagAt promises' t.1)) <$> waiting.
Proof.
  intros HP.
  induction n as [|n IH]; intros schedule waiting promises st Hlen Hdup Hnone.
  { destruct waiting; [|done]. exists promises, st. split_and!; try done.
    - intros t Ht. by apply elem_of_nil in Ht.
    - exists []. by rewrite app_nil_r. }
  destruct waiting as [|task others]; [done|].
  cbn [GetLatestTag.runQueue].
  pose proof (pick_Permutation (hd 0%nat schedule) task others) as Hperm.
  destruct (pick (hd 0%nat schedule) task others) as [[i url] waiting'].
  simpl in Hperm.
  assert (promises !! i = Some None) as Hi.
  { apply (Hnone (i, url)). rewrite Hperm. left. }
  assert (i < length promises)%nat as Hlt by (by eapply lookup_lt_Some).
  rewrite Hperm in Hdup. cbn in Hdup. apply NoDup_cons in Hdup as [Hfresh Hdup].
  destruct (urlExists_answers url st) as (b & st1 & Hrun & Hst1).
  unfold bind. rewrite Hrun.
  destruct (IH (tl schedule) waiting' (<[i := Some (mkAsset url b)]> promises) st1)
    as (promises' & st' & Hq & Hlen' & Hsame & Hdone & new & Hst' & Hnew).
  { apply Permutation_length in Hperm. simpl in *. lia. }
  { done. }
  { intros t Ht. rewrite list_lookup_insert_ne.
    - apply Hnone. rewrite Hperm. by right.
    - intros ->. apply Hfresh. by apply list_elem_of_fmap_2. }
  assert (promises' !! i = Some (Some (mkAsset url b))) as Hi'.
  { rewrite (Hsame i Hfresh). by rewrite list_lookup_insert_eq. }
  assert (flagAt promises' i = b) as Hflag by (unfold flagAt; by rewrite Hi').
  exists promises', st'. split_and!.
  - done.
  - by rewrite Hlen', length_insert.
  - intros j Hj. rewrite Hperm in Hj. cbn in Hj.
    apply not_elem_of_cons in Hj as [Hji Hj].
    rewrite (Hsame j Hj). by rewrite list_lookup_insert_ne.
  - intros t Ht. rewrite Hperm in Ht. apply elem_of_cons in Ht as [->|Ht].
    + simpl. rewrite Hflag. split; [done|]. by eapply HP.
    + by apply Hdone.
  - exists ((url, b) :: new). split.
    + rewrite Hst', Hst1, <-app_assoc. done.
    + rewrite Hperm, fmap_cons. simpl. rewrite Hflag. by constructor.
Qed.

(** The verification phase always completes: the awaited array has one
    element per pushed task, in push order, and each element holds the answer
    of one probe of its URL. *)
Lemma verify_run (P : string → bool → Prop) (schedule : list nat)
    (commit : option string) (st : State) :
  (∀ url s b s', urlExists url s = (Fulfilled b, s') → P url b) →
  ∃ exist st',
    verify schedule commit st = (Fulfilled exist, st')
    ∧ downloadUrl <$> exist = downloadUrls commit
    ∧ Forall (λ a, P (downloadUrl a) (exists_ a)) exist
    ∧ ∃ new, probes st' = probes st ++ new ∧ new ≡ₚ probeOf <$> exist.
Proof.
  intros HP. unfold GetLatestTag.verify.
  set (urls := downloadUrls commit).
  set (waiting := zip (seq 0 (length urls)) urls).
  assert (waiting.*1 = seq 0 (length urls)) as Hfst
    by (apply fst_zip; by rewrite length_seq).
  assert (waiting.*2 = urls) as Hsnd
    by (apply snd_zip; by rewrite length_seq).
  destruct (runQueue_run P (length urls) HP schedule waiting
              (replicate (length urls) None) st)
    as (promises' & st' & Hq & Hlen & _ & Hdone & new & Hst' & Hnew).
  { unfold waiting. rewrite length_zip, length_seq. lia. }
  { rewrite Hfst. apply NoDup_seq. }
  { intros t Ht. apply lookup_replicate_2.
    assert (t.1 ∈ waiting.*1) as Hin by (by apply list_elem_of_fmap_2).
    rewrite Hfst in Hin. apply elem_of_seq in Hin. lia. }
  set (exist := (λ t, mkAsset t.2 (flagAt promises' t.1)) <$> waiting).
  assert (promises' = Some <$> exist) as Hall.
  { apply list_eq. intros i. unfold exist.
    rewrite !list_lookup_fmap.
    destruct (waiting !! i) as [t|] eqn:Hi; simpl.
    - assert (t.1 = i) as Ht1.
      { assert (waiting.*1 !! i = Some t.1) as H1
          by (by rewrite list_lookup_fmap, Hi).
        rewrite Hfst in H1. apply lookup_seq in H1. lia. }
      destruct (Hdone t) as [Hp _]; [by eapply list_elem_of_lookup_2|].
      rewrite <-Ht1. exact Hp.
    - apply lookup_ge_None. apply lookup_ge_None in Hi.
      rewrite Hlen, length_replicate.
      unfold waiting in Hi. rewrite length_zip, length_seq in Hi. lia. }
  exists exist, st'. split_and!.
  - unfold bind. rewrite Hq. unfold promiseAll.
    rewrite Hall, mapM_fmap_Some; done.
  - unfold exist. rewrite <-list_fmap_compose. exact Hsnd.
  - unfold exist. apply Forall_fmap, Forall_forall. intros t Ht. simpl.
    by apply Hdone.
  - exists new. split; [done|]. rewrite Hnew. unfold exist.
    by rewrite <-list_fmap_compose.
Qed.

(** *** The cross product *)

Lemma lookup_bind_block {A B} (f : A → list B) (m : nat) (l : list A)
    (i j : nat) (x : A) (y : B) :
  (∀ a, length (f a) = m) →
  l !! i = Some x → f x !! j = Some y →
  (l ≫= f) !! (i * m + j)%nat = Some y.
Proof.
  intros Hm. revert i. induction l as [|a l IH]; intros i Hi Hj; [done|].
  rewrite bind_cons. destruct i as [|i]; simpl in Hi.
  - injection Hi as ->. rewrite lookup_app_l; [done|].
    simpl. by eapply lookup_lt_Some.
  - rewrite lookup_app_r; rewrite Hm; [|lia].
    replace (S i * m + j - m)%nat with (i * m + j)%nat by lia. by apply IH.
Qed.

Lemma length_assetReferences :
  length assetReferences
  = (length relevantPlatforms * length engines * length extensions)%nat.
Proof.
  unfold GetLatestTag.assetReferences.
  induction relevantPlatforms as [|p l IH]; [done|].
  rewrite bind_cons, length_app, IH. simpl. lia.
Qed.

Lemma elem_of_assetReferences (p e x : string) :
((p, e, x) ∈ assetReferences)
  ↔ p ∈ platforms ∧ (p ∉ excludedPlatforms) ∧ e ∈ engines ∧ x ∈ extensions.
Proof.
  unfold GetLatestTag.assetReferences, GetLatestTag.relevantPlatforms.
  rewrite list_elem_of_bind. split.
  - intros (p' & Hin & Hp). apply list_elem_of_filter in Hp as [Hex Hp].
    apply list_elem_of_bind in Hin as (e' & Hin & He).
    apply list_elem_of_bind in Hin as (x' & Hin & Hx).
    apply list_elem_of_singleton in Hin. by simplify_eq.
  - intros (Hp & Hex & He & Hx). exists p. split.
    + apply list_elem_of_bind. exists e. split; [|done].
      apply list_elem_of_bind. exists x. split; [|done].
      by apply list_elem_of_singleton.
    + by apply list_elem_of_filter.
Qed.

(** The position of a triple in the enumeration: platforms vary slowest,
    extensions fastest. *)
Lemma lookup_assetReferences (i j k : nat) (p e x : string) :
  relevantPlatforms !! i = Some p →
  engines !! j = Some e →
  extensions !! k = Some x →
  assetReferences !! ((i * length engines + j) * length extensions + k)%nat
  = Some (p, e, x).
Proof.
  intros Hp He Hx. unfold GetLatestTag.assetReferences.
  replace ((i * length engines + j) * length extensions + k)%nat
    with (i * 20 + (j * 5 + (k * 1 + 0)))%nat by (simpl; lia).
  eapply lookup_bind_block; [done|exact Hp|].
  eapply lookup_bind_block; [done|exact He|].
  eapply lookup_bind_block; [done|exact Hx|done].
Qed.

(** *** The claims about the probe *)

(** C4. For a received response, [urlExists] answers [true] exactly when the
    [content-length] header parses to a positive integer and the status is
    below 300. A missing header or a zero length gives [false] whatever the
    status, and a status of 300 or more gives [false] whatever the length. *)
Theorem urlExists_gates (url : string) (st : State) (agent : Agent)
    (res : Response) (w : World) :
  getProxyAgent url = inr agent →
  fetch url HEAD agent (net st) = (inr res, w) →
  ∃ b, (urlExists url st).1 = Fulfilled b
       ∧ (b = true ↔ (∃ n, JS.parseInt (contentLength res) = Some n ∧ 0 < n)
                      ∧ status res < 300)
       ∧ (contentLength res = None → b = false)
       ∧ (JS.parseInt (contentLength res) = Some 0 → b = false)
       ∧ (300 ≤ status res → b = false).
Proof.
  intros Hagent Hfetch. exists (answerTo res).
  rewrite urlExists_run, Hagent, Hfetch. unfold answerTo.
  split_and!; [done|..].
  - rewrite andb_true_iff, Z.ltb_lt. unfold JS.isPositive.
    destruct (JS.parseInt (contentLength res)) as [n|].
    + rewrite Z.ltb_lt. split; intros [Hn Hs]; (split; [|done]).
      * by exists n.
      * by destruct Hn as (n' & [= <-] & Hn).
    + split; [by intros [? _]|by intros [(n & ? & _) _]].
  - by intros ->.
  - by intros ->.
  - intros Hs. apply andb_false_intro2. by apply Z.ltb_ge.
Qed.

(** C5. Whatever the proxy lookup and the transport do, [urlExists] fulfils
    its promise with a boolean, and that boolean is [false] when either of
    them throws. *)
Theorem urlExists_never_rejects (url : string) (st : State) :
  (∃ b, (urlExists url st).1 = Fulfilled b)
  ∧ ((∃ e, getProxyAgent url = inl e)
     ∨ (∃ agent e w, getProxyAgent url = inr agent
                     ∧ fetch url HEAD agent (net st) = (inl e, w))
     → (urlExists url st).1 = Fulfilled false).
Proof.
  split.
  - destruct (urlExists_answers url st) as (b & st' & -> & _). by exists b.
  - rewrite urlExists_run.
    intros [[e ->]|(agent & e & w & -> & ->)]; done.
Qed.

(** *** The claims about the scan *)


(** A list none of whose reference artifacts answers is scanned to its end,
    and the scan returns [undefined]. *)
Lemma getFirstExistingCommit_exhausted (commits : list string) (st : State) :
  (∀ c, c ∈ commits → ∀ s, (urlExists (referenceUrl c) s).1 = Fulfilled false) →
  ∃ st', getFirstExistingCommit commits st = (Fulfilled None, st')
         ∧ probes st' = probes st ++ (failedProbe <$> commits).
Proof.
  revert st. induction commits as [|c commits IH]; intros st Hnone.
  { exists st. by rewrite app_nil_r. }
  destruct (urlExists_answers (referenceUrl c) st) as (b & st1 & Hrun & Hst1).
  pose proof (Hnone c (list_elem_of_here _ _) st) as Hc.
  rewrite Hrun in Hc. simpl in Hc. injection Hc as ->.
  destruct (IH st1) as (st' & Hscan & Hst').
  { intros c' Hc' s. apply Hnone. by right. }
  exists st'. cbn [GetLatestTag.getFirstExistingCommit]. unfold bind.
  rewrite Hrun. split; [done|].
  rewrite Hst', Hst1, fmap_cons, <-app_assoc. done.
Qed.

(** *** The claims about the verification phase and the result *)

Lemma missingAssets_nil (exist : list Asset) :
  missingAssets exist = [] ↔ Forall (λ a, exists_ a = true) exist.
Proof.
  unfold missingAssets. induction exist as [|a exist IH]; [done|].
  rewrite filter_cons, Forall_cons.
  destruct (exists_ a) eqn:Ha; case_decide; try done.
  - rewrite IH. tauto.
  - split; [done|]. by intros [? _].
Qed.

(** The last lines of [getLatestTag]. *)
Lemma aggregate_run (commit : option string) (exist : list Asset) (st : State) :
  aggregate commit exist st =
  match missingAssets exist with
  | [] => (Fulfilled commit, st)
  | _ :: _ => (Rejected (Error (missingMessage (missingAssets exist))), st)
  end.
Proof. unfold aggregate. by destruct (missingAssets exist). Qed.

(** C1. Once the list of commits is there, the scan and the verification
    phase complete, and on the outcomes [exist] of the verification phase
    [getLatestTag] returns the resolved commit exactly when every outcome has
    [exists = true]; otherwise it throws an [Error] whose message lists the
    [downloadUrl] of every outcome with [exists = false]. *)
Theorem getLatestTag_all_or_error (schedule : list nat) (st : State)
    (commits : list string) (st1 : State) :
  fetchCommits st = (Fulfilled commits, st1) →
  ∃ commit st2 exist st3,
    getFirstExistingCommit commits st1 = (Fulfilled commit, st2)
    ∧ verify schedule commit st2 = (Fulfilled exist, st3)
    ∧ ((getLatestTag schedule st).1 = Fulfilled commit
       ↔ Forall (λ a, exists_ a = true) exist)
    ∧ (¬ Forall (λ a, exists_ a = true) exist →
       (getLatestTag schedule st).1 =
       Rejected (Error ("Could not get new tag, as some assets don't exist: "
                        +:+ JS.join ", "
                              (downloadUrl <$> filter (λ a, exists_ a = false) exist)))).
Proof.
  intros Hlist.
  destruct (getFirstExistingCommit_fulfils commits st1) as (commit & st2 & Hscan).
  destruct (verify_run (λ _ _, True) schedule commit st2)
    as (exist & st3 & Hverify & _); [done|].
  exists commit, st2, exist, st3. split; [done|]. split; [done|].
  unfold GetLatestTag.getLatestTag, bind.
  rewrite Hlist, Hscan, Hverify, aggregate_run.
  rewrite <-missingAssets_nil.
  destruct (missingAssets exist) eqn:Hm; simpl.
  - split; [done|]. by intros [].
  - split; [split; intros; simplify_eq|]. intros _.
    unfold missingMessage. by rewrite <-Hm.
Qed.

(** C6. For every commit, the verification phase runs one probe for each
    triple of the cross product of the platforms that are not excluded, the
    four engines and the five extensions, and nothing else; the triples of
    an excluded platform are not among them. *)
Theorem verify_cross_product (schedule : list nat) (commit : option string)
    (st : State) :
  ∃ exist st' new,
    verify schedule commit st = (Fulfilled exist, st')
    ∧ probes st' = probes st ++ new
    ∧ new.*1 ≡ₚ assetUrl commit <$> assetReferences
    ∧ downloadUrl <$> exist = assetUrl commit <$> assetReferences
    ∧ length assetReferences
      = (length (filter (λ p, p ∉ excludedPlatforms) platforms)
         * length engines * length extensions)%nat
    ∧ (∀ p e x, ((p, e, x) ∈ assetReferences)
                ↔ p ∈ platforms
                  ∧ (p ∉ ["freebsd"; "arm"; "linux-nixos"; "openbsd"; "netbsd"])
                  ∧ e ∈ engines ∧ x ∈ extensions).
Proof.
  destruct (verify_run (λ _ _, True) schedule commit st)
    as (exist & st' & Hverify & Hurls & _ & new & Hst' & Hnew); [done|].
  unfold GetLatestTag.downloadUrls in Hurls.
  exists exist, st', new. split_and!; try done.
  - rewrite Hnew, <-Hurls, <-list_fmap_compose. done.
  - apply length_assetReferences.
  - apply elem_of_assetReferences.
Qed.

(** C9. When no reference artifact answers, the scan returns [undefined]
    without throwing, and [getLatestTag] goes on: it runs the verification
    phase on the URLs built with an [undefined] commit and ends as the
    aggregation of their outcomes does. *)
Theorem exhausted_scan_goes_on (schedule : list nat) (st : State)
    (commits : list string) (st1 : State) :
  fetchCommits st = (Fulfilled commits, st1) →
  (∀ c, c ∈ commits → ∀ s, (urlExists (referenceUrl c) s).1 = Fulfilled false) →
  ∃ st2 exist st3 new,
    getFirstExistingCommit commits st1 = (Fulfilled None, st2)
    ∧ verify schedule None st2 = (Fulfilled exist, st3)
    ∧ downloadUrl <$> exist = assetUrl None <$> assetReferences
    ∧ probes st3 = probes st2 ++ new
    ∧ new.*1 ≡ₚ assetUrl None <$> assetReferences
    ∧ getLatestTag schedule st = aggregate None exist st3.
Proof.
  intros Hlist Hnone.
  destruct (getFirstExistingCommit_exhausted commits st1 Hnone)
    as (st2 & Hscan & _).
  destruct (verify_run (λ _ _, True) schedule None st2)
    as (exist & st3 & Hverify & Hurls & _ & new & Hst3 & Hnew); [done|].
  unfold GetLatestTag.downloadUrls in Hurls.
  exists st2, exist, st3, new. split_and!; try done.
  - rewrite Hnew, <-Hurls, <-list_fmap_compose. done.
  - unfold GetLatestTag.getLatestTag, bind. by rewrite Hlist, Hscan, Hverify.
Qed.

(** With answers that do not depend on the state of the world, the awaited
    array is the same for every schedule. *)
Lemma verify_stable (commit : option string) (st : State)
    (schedule schedule' : list nat) :
  stableAnswers getProxyAgent fetch →
  (verify schedule commit st).1 = (verify schedule' commit st).1.
Proof.
  intros Hstable.
  set (P := λ (url : string) (b : bool),
              ∀ s, (urlExists url s).1 = Fulfilled b).
  assert (∀ url s b s', urlExists url s = (Fulfilled b, s') → P url b) as HP.
  { intros url s b s' Hrun s0. by rewrite (Hstable url s0 s), Hrun. }
  assert (∀ exist exist' : list Asset,
            downloadUrl <$> exist = downloadUrl <$> exist' →
            Forall (λ a, P (downloadUrl a) (exists_ a)) exist →
            Forall (λ a, P (downloadUrl a) (exists_ a)) exist' →
            exist = exist') as Heq.
  { induction exist as [|[u b] exist IH]; intros [|[u' b'] exist'] Hu Hx Hx';
      simplify_eq/=; [done|].
    apply Forall_cons in Hx as [Hb Hx]. apply Forall_cons in Hx' as [Hb' Hx'].
    simpl in *. specialize (Hb st). rewrite (Hb' st) in Hb.
    injection Hb as ->. f_equal. by apply IH. }
  destruct (verify_run P schedule commit st HP)
    as (exist & st1 & -> & Hurls & Hall & _).
  destruct (verify_run P schedule' commit st HP)
    as (exist' & st1' & -> & Hurls' & Hall' & _).
  simpl. f_equal. apply Heq; [congruence|done..].
Qed.


End FetchEngineFacts.

(** ** The URL builder *)

Section UtilFacts.

Import Util.

Local Abbreviation chars := String.list_ascii_of_string.

Lemma chars_app (s1 s2 : string) : chars (s1 +:+ s2) = chars s1 ++ chars s2.
Proof. induction s1 as [|c s1 IH]; simpl; [done|]. by rewrite IH. Qed.

Lemma chars_inj (s1 s2 : string) : chars s1 = chars s2 → s1 = s2.
Proof.
  intros Heq.
  rewrite <-(String.string_of_list_ascii_of_string s1),
          <-(String.string_of_list_ascii_of_string s2).
  by rewrite Heq.
Qed.

(** A list is cut in one way only at the first occurrence of a character. *)
Lemma cut_at_first (c : ascii) (x y x' y' : list ascii) :
  c ∉ x → c ∉ x' → x ++ c :: y = x' ++ c :: y' → x = x' ∧ y = y'.
Proof.
  revert x'. induction x as [|a x IH]; intros [|a' x'] Hx Hx' Heq;
    simplify_eq/=.
  - done.
  - exfalso. apply Hx'. left.
  - exfalso. apply Hx. left.
  - apply not_elem_of_cons in Hx as [_ Hx].
    apply not_elem_of_cons in Hx' as [_ Hx'].
    destruct (IH x' Hx Hx') as [-> ->]; done.
Qed.

(** And in one way only at the last occurrence. *)
Lemma cut_at_last (c : ascii) (x y x' y' : list ascii) :
  c ∉ y → c ∉ y' → x ++ c :: y = x' ++ c :: y' → x = x' ∧ y = y'.
Proof.
  intros Hy Hy' Heq. apply (f_equal reverse) in Heq.
  rewrite !reverse_app, !reverse_cons, <-!app_assoc in Heq. simpl in Heq.
  apply cut_at_first in Heq as [Hr1 Hr2];
    [|by rewrite elem_of_reverse..].
  split; by apply (inj reverse).
Qed.

(** The characters of a URL, segment by segment. *)
Lemma chars_urlOf (host repo : string) (t : AssetReference) :
  chars (urlOf host repo t)
  = (chars host ++ "/"%char :: chars repo) ++ "/"%char ::
    ((chars (branch t) ++ "/"%char :: chars (commit t))
       ++ "/"%char :: chars (platform t))
      ++ "/"%char :: (chars (binary t) ++ "."%char :: chars (extension t)).
Proof.
  unfold urlOf, buildURL. rewrite !chars_app. simpl.
  by rewrite <-!app_assoc.
Qed.

(** C8. The builder is a function of its tuple, and on valid tuples it is
    injective: two tuples have the same URL exactly when they are equal. *)
Theorem urlOf_injective (host repo : string) (t1 t2 : AssetReference) :
  valid t1 → valid t2 →
  (urlOf host repo t1 = urlOf host repo t2 ↔ t1 = t2).
Proof.
  intros (Hc1 & Hp1 & Hb1 & Hd1 & He1) (Hc2 & Hp2 & Hb2 & Hd2 & He2).
  split; [|by intros ->].
  intros Heq. apply (f_equal chars) in Heq. rewrite !chars_urlOf in Heq.
  apply app_inv_head in Heq. injection Heq as Heq.
  unfold occurs in *.
  apply cut_at_last in Heq as [Heq Hfile].
  2,3: rewrite elem_of_app, elem_of_cons; intros [?|[?|?]]; done.
  apply cut_at_last in Heq as [Heq Hplatform]; [|done..].
  apply cut_at_last in Heq as [Hbranch Hcommit]; [|done..].
  apply cut_at_first in Hfile as [Hbinary Hextension]; [|done..].
  destruct t1, t2; simpl in *. f_equal; by apply chars_inj.
Qed.

(** The engines and the extensions of [getLatestTag] make valid tuples,
    with or without the dot the extensions start with. *)
Lemma engines_extensions_valid :
  Forall (λ e, ¬ occurs "/" e ∧ ¬ occurs "." e) engines
  ∧ Forall (λ x, ¬ occurs "/" x ∧ ¬ occurs "/" (Fixture.dropDot x)) extensions.
Proof. unfold occurs. split; compute_done. Qed.

End UtilFacts.

(** ** The module at work in the small world *)

Section FixtureFacts.

Import Fixture.

Local Abbreviation run published :=
  (getLatestTag getProxyAgent (fetch "c1 c2 c3" published) shasOfJson
                platforms getDownloadUrl).

Lemma fixture_stable (commits : string) (published : list string) :
  stableAnswers getProxyAgent (fetch commits published).
Proof.
  intros url s s'. rewrite !urlExists_run. simpl.
  by destruct (decide (url ∈ published)).
Qed.

Lemma getLatestTag_all_or_error_witness :
  (run partOfC2 [2; 0; 5]%nat start).1 =
  Rejected (Error "Could not get new tag, as some assets don't exist: https://binaries.example.com/engines/master/c2/darwin/migration-engine.gz, https://binaries.example.com/engines/master/c2/windows/prisma-fmt.sig").
Proof.
  destruct (getLatestTag_all_or_error getProxyAgent (fetch "c1 c2 c3" partOfC2)
              shasOfJson platforms getDownloadUrl [2; 0; 5]%nat start
              ["c1"; "c2"; "c3"] (mkState 1%nat [] []))
    as (commit & st2 & exist & st3 & Hscan & Hverify & _ & Hmsg);
    [vm_compute; reflexivity|].
  vm_compute in Hscan. injection Hscan as <- <-.
  vm_compute in Hverify. injection Hverify as <- <-.
  rewrite Hmsg; [vm_compute; reflexivity|]. compute_done.
Defined.

(** The probe on some responses. *)
Example probe_200_with_bytes :
  (urlExists getProxyAgent (serve (mkResponse 200 [("content-length", "1024")] ""))
             "u" start).1 = Fulfilled true.
Proof. reflexivity. Qed.
Example probe_200_zero_length :
  (urlExists getProxyAgent (serve (mkResponse 200 [("content-length", "0")] ""))
             "u" start).1 = Fulfilled false.
Proof. reflexivity. Qed.
Example probe_200_no_length :
  (urlExists getProxyAgent (serve (mkResponse 200 [("etag", "x")] ""))
             "u" start).1 = Fulfilled false.
Proof. reflexivity. Qed.
Example probe_299_with_bytes :
  (urlExists getProxyAgent (serve (mkResponse 299 [("content-length", "7")] ""))
             "u" start).1 = Fulfilled true.
Proof. reflexivity. Qed.
Example probe_300_with_bytes :
  (urlExists getProxyAgent (serve (mkResponse 300 [("content-length", "1024")] ""))
             "u" start).1 = Fulfilled false.
Proof. reflexivity. Qed.
Example probe_404_with_bytes :
  (urlExists getProxyAgent (serve (mkResponse 404 [("content-length", "1024")] ""))
             "u" start).1 = Fulfilled false.
Proof. reflexivity. Qed.
Example probe_offline : (urlExists getProxyAgent offline "u" start).1 = Fulfilled false.
Proof. reflexivity. Qed.
Example probe_no_agent :
  (urlExists noAgent (serve (mkResponse 200 [("content-length", "1024")] ""))
             "u" start).1 = Fulfilled false.
Proof. reflexivity. Qed.

Lemma urlExists_gates_witness :
  (urlExists getProxyAgent (serve (mkResponse 204 [("content-type", "application/gzip"); ("content-length", "12")] ""))
             "u" start).1 = Fulfilled true.
Proof.
  destruct (urlExists_gates getProxyAgent
              (serve (mkResponse 204 [("content-type", "application/gzip"); ("content-length", "12")] ""))
              "u" start () (mkResponse 204 [("content-type", "application/gzip"); ("content-length", "12")] "") 1%nat)
    as (b & Hb & Hiff & _); [reflexivity..|].
  rewrite Hb. f_equal. apply Hiff. split; [|simpl; lia].
  exists 12. split; [vm_compute; reflexivity|lia].
Defined.

Lemma urlExists_never_rejects_witness :
  (urlExists getProxyAgent offline "u" start).1 = Fulfilled false
  ∧ (urlExists noAgent offline "u" start).1 = Fulfilled false.
Proof.
  split.
  - apply (proj2 (urlExists_never_rejects getProxyAgent offline "u" start)).
    right. by exists (), "ECONNREFUSED", 1%nat.
  - apply (proj2 (urlExists_never_rejects noAgent offline "u" start)).
    left. by exists "EPROXY".
Defined.

(** The scan in the small world: [c1] has nothing, [c2] is returned, [c3] is
    not probed although its reference artifact is there. *)
Example scan_returns_c2 :
  let r := getFirstExistingCommit getProxyAgent (fetch "" allOfC2) getDownloadUrl
             ["c1"; "c2"; "c3"] start in
  r.1 = Fulfilled (Some "c2")
  ∧ probes r.2 = [("https://binaries.example.com/engines/master/c1/darwin/query-engine.gz", false);
                  ("https://binaries.example.com/engines/master/c2/darwin/query-engine.gz", true)].
Proof. vm_compute. done. Qed.

(** C3 (the code on a list none of whose reference artifacts exists). The
    scan does not throw: its promise is fulfilled with [undefined], after
    every commit of the list was probed. The same happens on the empty
    list. *)
Theorem getFirstExistingCommit_exhausted_undefined :
  let r := getFirstExistingCommit getProxyAgent (fetch "" []) getDownloadUrl
             ["c1"; "c2"] start in
  r.1 = Fulfilled None
  ∧ probes r.2 = [("https://binaries.example.com/engines/master/c1/darwin/query-engine.gz", false);
                  ("https://binaries.example.com/engines/master/c2/darwin/query-engine.gz", false)]
  ∧ (getFirstExistingCommit getProxyAgent (fetch "" []) getDownloadUrl [] start).1
    = Fulfilled None.
Proof. vm_compute. done. Qed.

Lemma exhausted_scan_goes_on_witness :
  ∃ st2 exist st3 new,
    getFirstExistingCommit getProxyAgent (fetch "c1 c2 c3" []) getDownloadUrl
      ["c1"; "c2"; "c3"] (mkState 1%nat [] []) = (Fulfilled None, st2)
    ∧ verify getProxyAgent (fetch "c1 c2 c3" []) platforms getDownloadUrl
        [7; 7]%nat None st2 = (Fulfilled exist, st3)
    ∧ downloadUrl <$> exist
      = assetUrl getDownloadUrl None <$> assetReferences platforms
    ∧ probes st3 = probes st2 ++ new
    ∧ new.*1 ≡ₚ assetUrl getDownloadUrl None <$> assetReferences platforms
    ∧ run [] [7; 7]%nat start = aggregate None exist st3.
Proof.
  apply (exhausted_scan_goes_on getProxyAgent (fetch "c1 c2 c3" []) shasOfJson
           platforms getDownloadUrl [7; 7]%nat start ["c1"; "c2"; "c3"]
           (mkState 1%nat [] [])).
  - vm_compute. reflexivity.
  - intros c _ s. by rewrite urlExists_run.
Defined.

(** What [getLatestTag] then throws names artifacts of a commit called
    [undefined]. *)
Example undefined_commit_message :
  ∃ rest,
    (run [] [] start).1 =
    Rejected (Error ("Could not get new tag, as some assets don't exist: https://binaries.example.com/engines/master/undefined/darwin/query-engine.gz, "
                     +:+ rest)).
Proof. eexists. vm_compute. reflexivity. Qed.


(** Two completion orders, one message. *)
Example message_whatever_the_order :
  (run partOfC2 [39; 0; 12; 3]%nat start).1 = (run partOfC2 [] start).1.
Proof. vm_compute. reflexivity. Qed.

Lemma urlOf_injective_witness :
  let t1 := Util.mkAssetReference "master" "c2" "darwin" "query-engine" "gz" in
  let t2 := Util.mkAssetReference "master" "c2" "darwin" "query-engine" "gz.sig" in
  Util.valid t1 ∧ Util.valid t2
  ∧ Util.urlOf host repo t1 ≠ Util.urlOf host repo t2.
Proof.
  intros t1 t2.
  assert (Util.valid t1) as H1 by (unfold Util.valid, Util.occurs; compute_done).
  assert (Util.valid t2) as H2 by (unfold Util.valid, Util.occurs; compute_done).
  split_and!; [done..|].
  intros Heq. by apply (urlOf_injective host repo t1 t2 H1 H2) in Heq.
Defined.

End FixtureFacts.

(** * Further properties of [getLatestTag.ts] *)

Section FetchEngineMore.

Context {World Err Agent : Type}.
Variable getProxyAgent : string → Err + Agent.
Variable fetch : string → Method → Agent → World → (Err + Response) * World.
Variable shasOfJson : string → Err + list string.
Variable platforms : list string.
Variable getDownloadUrl :
  string → option string → string → string → option string → string.

Local Abbreviation State := (@State World Err).
Local Abbreviation urlExists := (urlExists getProxyAgent fetch).
Local Abbreviation referenceUrl := (referenceUrl getDownloadUrl).
Local Abbreviation getFirstExistingCommit :=
  (getFirstExistingCommit getProxyAgent fetch getDownloadUrl).
Local Abbreviation relevantPlatforms := (relevantPlatforms platforms).
Local Abbreviation assetReferences := (assetReferences platforms).
Local Abbreviation assetUrl := (assetUrl getDownloadUrl).
Local Abbreviation downloadUrls := (downloadUrls platforms getDownloadUrl).
Local Abbreviation verify := (verify getProxyAgent fetch platforms getDownloadUrl).
Local Abbreviation fetchCommits := (fetchCommits getProxyAgent fetch shasOfJson).
Local Abbreviation getLatestTag :=
  (getLatestTag getProxyAgent fetch shasOfJson platforms getDownloadUrl).
Local Abbreviation answersAs := (answersAs getProxyAgent fetch).

(** *** [fromEntries] *)

(** X1. The object built by [fromEntries] maps a name to the value of the
    last entry with that name, and has no property for a name with no
    entry. *)
Theorem fromEntries_lookup (l : list (string * string)) (k : string) :
  k ≠ "__proto__" →
  fromEntries l !! k = snd <$> last (filter (λ kv, kv.1 = k) l).
Proof.
  intros Hk. induction l as [|[k' v] l IH] using rev_ind; [done|].
  rewrite fromEntries_app, filter_app. simpl.
  rewrite filter_cons, filter_nil. simpl.
  case_decide as Hp; case_decide as Hkk; simplify_eq.
  - by rewrite app_nil_r.
  - by rewrite last_snoc, lookup_insert_eq.
  - rewrite app_nil_r, lookup_insert_ne; done.
Qed.

(** *** [urlExists] *)

Lemma decimal_nonneg (s : list ascii) (acc : Z) :
  Forall JS.isDecimalDigit s → 0 ≤ acc →
  0 ≤ foldl (λ acc c, acc * 10 + (Z.of_nat (nat_of_ascii c) - 48)) acc s.
Proof.
  revert acc. induction s as [|c s IH]; intros acc Hs Hacc; [done|].
  apply Forall_cons in Hs as [Hc Hs]. unfold JS.isDecimalDigit in Hc.
  simpl. apply IH; [done|lia].
Qed.

(** X2. For a response whose [content-length] is a non-empty string of
    decimal digits, the probe answers [true] exactly when the number is not
    zero and the status is below 300. *)
Theorem urlExists_decimal_length (url : string) (st : State) (agent : Agent)
    (res : Response) (w : World) (digits : string) :
  getProxyAgent url = inr agent →
  fetch url HEAD agent (net st) = (inr res, w) →
  contentLength res = Some digits →
  digits ≠ "" →
  Forall JS.isDecimalDigit (String.list_ascii_of_string digits) →
  (urlExists url st).1
  = Fulfilled (bool_decide (JS.decimal (String.list_ascii_of_string digits) ≠ 0
                            ∧ status res < 300)).
Proof.
  intros Hagent Hfetch Hlen Hne Hdigits.
  rewrite urlExists_run, Hagent, Hfetch. simpl. f_equal.
  unfold answerTo. rewrite Hlen, parseInt_decimal by done. simpl.
  pose proof (decimal_nonneg _ 0 Hdigits (Z.le_refl 0)) as Hpos.
  fold (JS.decimal (String.list_ascii_of_string digits)) in Hpos.
  apply eq_true_iff_eq.
  rewrite andb_true_iff, bool_decide_eq_true, !Z.ltb_lt. lia.
Qed.

(** X3. The probe is silent exactly for a response whose status is at most
    200; after a failed request, or a response with a higher status (even
    one it answers [true] to), [console.error] has received one more
    entry. *)
Theorem urlExists_console (url : string) (st : State) :
  (console (urlExists url st).2 = console st
   ↔ ∃ agent res w, getProxyAgent url = inr agent
                    ∧ fetch url HEAD agent (net st) = (inr res, w)
                    ∧ status res ≤ 200)
  ∧ (console (urlExists url st).2 = console st
     ∨ ∃ entry, console (urlExists url st).2 = console st ++ [entry]).
Proof.
  assert (∀ (l : list (@LogEntry Err)) x, l ++ [x] ≠ l) as Hgrow.
  { intros l x Heq. apply (f_equal length) in Heq.
    rewrite length_app in Heq. simpl in Heq. lia. }
  rewrite urlExists_run.
  destruct (getProxyAgent url) as [e|agent] eqn:Hagent; simpl.
  { split; [|by eauto]. split; [intros H; by apply Hgrow in H|].
    by intros (? & ? & ? & ? & _). }
  destruct (fetch url HEAD agent (net st)) as [[e|res] w] eqn:Hfetch; simpl.
  { split; [|by eauto]. split; [intros H; by apply Hgrow in H|].
    intros (a & r & w' & [= <-] & Hf & _). rewrite Hfetch in Hf. done. }
  destruct (200 <? status res) eqn:Hs.
  - apply Z.ltb_lt in Hs. split; [|by eauto].
    split; [intros H; by apply Hgrow in H|].
    intros (a & r & w' & [= <-] & Hf & Hr). rewrite Hfetch in Hf.
    simplify_eq. lia.
  - apply Z.ltb_ge in Hs. rewrite app_nil_r. split; [|by left].
    split; [|done]. intros _. by exists agent, res, w.
Qed.

(** *** [getFirstExistingCommit] *)

(** X4. Scanning a list cut in two: the scan of the first part decides when
    it finds a commit, and otherwise the scan goes on with the second part
    from the state the first part left. *)
Theorem getFirstExistingCommit_app (l1 l2 : list string) (st : State) :
  getFirstExistingCommit (l1 ++ l2) st
  = match getFirstExistingCommit l1 st with
    | (Fulfilled None, st') => getFirstExistingCommit l2 st'
    | r => r
    end.
Proof.
  revert st. induction l1 as [|c l1 IH]; intros st; [done|].
  cbn [app GetLatestTag.getFirstExistingCommit]. unfold bind.
  destruct (urlExists (referenceUrl c) st) as [[[]| |] st1];
    first [reflexivity|apply IH].
Qed.

(** What a successful scan leaves behind. *)
Lemma getFirstExistingCommit_found (commits : list string) (st st' : State)
    (c : string) :
  getFirstExistingCommit commits st = (Fulfilled (Some c), st') →
  c ∈ commits
  ∧ (referenceUrl c, true) ∈ probes st'
  ∧ probes st `prefix_of` probes st'.
Proof.
  revert st. induction commits as [|c0 commits IH]; intros st Hscan; [done|].
  destruct (urlExists_answers getProxyAgent fetch (referenceUrl c0) st)
    as (b & st1 & Hrun & Hst1).
  cbn [GetLatestTag.getFirstExistingCommit] in Hscan. unfold bind in Hscan.
  rewrite Hrun in Hscan. destruct b.
  - unfold ret in Hscan. simplify_eq. split_and!; [left| |].
    + rewrite Hst1. apply elem_of_app. right. left.
    + rewrite Hst1. by apply prefix_app_r.
  - destruct (IH st1 Hscan) as (Hin & Hprobe & Hpre). split_and!; [by right|done|].
    etrans; [|exact Hpre]. rewrite Hst1. by apply prefix_app_r.
Qed.

(** X5. Over a transport whose answers do not change, the scan returns the
    first commit of the list whose reference artifact is there, and
    [undefined] when there is none. *)
Theorem getFirstExistingCommit_find (answer : string → bool)
    (commits : list string) (st : State) :
  answersAs answer →
  (getFirstExistingCommit commits st).1
  = Fulfilled (List.find (λ c, answer (referenceUrl c)) commits).
Proof.
  intros Hanswer. revert st.
  induction commits as [|c commits IH]; intros st; [done|].
  destruct (urlExists_answers getProxyAgent fetch (referenceUrl c) st)
    as (b & st1 & Hrun & _).
  pose proof (Hanswer (referenceUrl c) st) as Hc. rewrite Hrun in Hc.
  simpl in Hc. injection Hc as ->.
  cbn [GetLatestTag.getFirstExistingCommit List.find]. unfold bind.
  rewrite Hrun. destruct (answer (referenceUrl c)); [done|]. apply IH.
Qed.

(** *** [getLatestTag] *)

(** Fetching the list of commits runs no probe. *)
Lemma fetchCommits_probes (st : State) :
  probes (fetchCommits st).2 = probes st.
Proof.
  unfold GetLatestTag.fetchCommits, bind, fetchWithAgent.
  destruct (getProxyAgent commitsUrl) as [e|agent]; [done|].
  destruct (fetch commitsUrl GET agent (net st)) as [[e|res] w]; [done|].
  simpl. by destruct (shasOfJson (body res)).
Qed.

(** X6. When the list of commits cannot be had (the proxy lookup throws, the
    request fails, or the body does not decode), [getLatestTag] is rejected
    with that very error and no probe has run. *)
Theorem getLatestTag_upstream_failure (schedule : list nat) (st : State) :
  ((∃ e, getProxyAgent commitsUrl = inl e)
   ∨ (∃ agent e w, getProxyAgent commitsUrl = inr agent
                   ∧ fetch commitsUrl GET agent (net st) = (inl e, w))
   ∨ (∃ agent res w e, getProxyAgent commitsUrl = inr agent
                       ∧ fetch commitsUrl GET agent (net st) = (inr res, w)
                       ∧ shasOfJson (body res) = inl e)
   ↔ ∃ e, (getLatestTag schedule st).1 = Rejected (Thrown e))
  ∧ (∀ e, (getLatestTag schedule st).1 = Rejected (Thrown e) →
          (fetchCommits st).1 = Rejected (Thrown e)
          ∧ probes (getLatestTag schedule st).2 = probes st).
Proof.
  assert (∀ commits st1, fetchCommits st = (Fulfilled commits, st1) →
            ∀ e, (getLatestTag schedule st).1 ≠ Rejected (Thrown e)) as Hlater.
  { intros commits st1 Hlist e.
    unfold GetLatestTag.getLatestTag, bind. rewrite Hlist.
    destruct (getFirstExistingCommit_fulfils getProxyAgent fetch getDownloadUrl
                commits st1) as (commit & st2 & ->).
    destruct (verify_run getProxyAgent fetch platforms getDownloadUrl
                (λ _ _, True) schedule commit st2) as (exist & st3 & -> & _);
      [done|].
    rewrite aggregate_run. by destruct (missingAssets exist). }
  pose proof (fetchCommits_probes st) as Hprobes.
  unfold GetLatestTag.getLatestTag, bind in *.
  unfold GetLatestTag.fetchCommits, bind, fetchWithAgent in *.
  destruct (getProxyAgent commitsUrl) as [e|agent] eqn:Hagent; simpl in *.
  { split; [|by intros ? [= <-]]. split; [by eauto|]. intros _. left. by eauto. }
  destruct (fetch commitsUrl GET agent (net st)) as [[e|res] w] eqn:Hfetch;
    simpl in *.
  { split; [|by intros ? [= <-]]. split; [by eauto|]. intros _. right. left.
    by exists agent, e, w. }
  destruct (shasOfJson (body res)) as [e|commits] eqn:Hjson; simpl in *.
  { split; [|by intros ? [= <-]]. split; [by eauto|]. intros _. right. right.
    by exists agent, res, w, e. }
  split.
  - split.
    + intros [(e & ?)|[(a & e & w' & [= <-] & Hf)|(a & r & w' & e & [= <-] & Hf & Hj)]];
        [done|rewrite Hfetch in Hf; done|].
      rewrite Hfetch in Hf. simplify_eq. congruence.
    + intros (e & He). by eapply Hlater in He.
  - intros e He. by eapply Hlater in He.
Qed.

(** X7. A commit returned by [getLatestTag] is one of the list, its
    reference artifact was probed and found, and each of its assets was
    probed and found. *)
Theorem getLatestTag_sound (schedule : list nat) (st st1 st' : State)
    (commits : list string) (c : string) :
  fetchCommits st = (Fulfilled commits, st1) →
  getLatestTag schedule st = (Fulfilled (Some c), st') →
  c ∈ commits
  ∧ (referenceUrl c, true) ∈ probes st'
  ∧ ∀ ref, ref ∈ assetReferences → (assetUrl (Some c) ref, true) ∈ probes st'.
Proof.
  intros Hlist Hrun. unfold GetLatestTag.getLatestTag, bind in Hrun.
  rewrite Hlist in Hrun.
  destruct (getFirstExistingCommit_fulfils getProxyAgent fetch getDownloadUrl
              commits st1) as (commit & st2 & Hscan).
  rewrite Hscan in Hrun.
  destruct (verify_run getProxyAgent fetch platforms getDownloadUrl
              (λ _ _, True) schedule commit st2)
    as (exist & st3 & Hverify & Hurls & _ & new & Hst3 & Hnew); [done|].
  rewrite Hverify, aggregate_run in Hrun.
  destruct (missingAssets exist) eqn:Hmissing; [|done].
  simplify_eq. apply missingAssets_nil in Hmissing.
  destruct (getFirstExistingCommit_found _ _ _ _ Hscan) as (Hin & Href & _).
  split_and!; [done|..].
  - rewrite Hst3. apply elem_of_app. by left.
  - intros ref Href'. rewrite Hst3, elem_of_app. right. rewrite Hnew.
    assert (assetUrl (Some c) ref ∈ downloadUrl <$> exist) as Hurl.
    { rewrite Hurls. by apply list_elem_of_fmap_2. }
    apply list_elem_of_fmap in Hurl as (a & -> & Ha).
    rewrite Forall_forall in Hmissing. specialize (Hmissing a Ha).
    apply list_elem_of_fmap. exists a. split; [|done].
    unfold probeOf. by rewrite Hmissing.
Qed.

(** X8. When no platform is left after the exclusions (or the list of
    platforms is empty), the verification phase runs no probe and
    [getLatestTag] ends exactly as the scan did: with the commit the scan
    found, or with [undefined]. *)
Theorem getLatestTag_no_platform (schedule : list nat) (st st1 : State)
    (commits : list string) :
  (∀ p, p ∈ platforms → p ∈ excludedPlatforms) →
  fetchCommits st = (Fulfilled commits, st1) →
  getLatestTag schedule st = getFirstExistingCommit commits st1.
Proof.
  intros Hall Hlist.
  assert (relevantPlatforms = []) as Hnone.
  { unfold GetLatestTag.relevantPlatforms.
    induction platforms as [|p l IH]; [done|].
    rewrite filter_cons. rewrite decide_False.
    - apply IH. intros q Hq. apply Hall. by right.
    - intros Hp. apply Hp, Hall. left. }
  unfold GetLatestTag.getLatestTag, bind. rewrite Hlist.
  destruct (getFirstExistingCommit_fulfils getProxyAgent fetch getDownloadUrl
              commits st1) as (commit & st2 & ->).
  unfold GetLatestTag.verify, GetLatestTag.downloadUrls,
    GetLatestTag.assetReferences.
  rewrite Hnone. done.
Qed.

Lemma missing_of_answers (answer : string → bool) (exist : list Asset) :
  Forall (λ a, exists_ a = answer (downloadUrl a)) exist →
  downloadUrl <$> missingAssets exist
  = filter (λ url, answer url = false) (downloadUrl <$> exist).
Proof.
  unfold missingAssets. induction exist as [|a exist IH]; intros Hall; [done|].
  apply Forall_cons in Hall as [Ha Hall].
  rewrite fmap_cons, !filter_cons, <-Ha.
  case_decide; [rewrite fmap_cons|]; by rewrite IH.
Qed.

(** X9. Over a transport whose answers do not change, [getLatestTag] is the
    function [expectedTag] of the list of commits, whatever the order in
    which the probes complete: it returns the first commit whose reference
    artifact is there when none of that commit's assets is absent, and
    otherwise throws the message that lists the absent ones in the order of
    the loops. *)
Theorem getLatestTag_expected (answer : string → bool) (schedule : list nat)
    (st st1 : State) (commits : list string) :
  answersAs answer →
  fetchCommits st = (Fulfilled commits, st1) →
  (getLatestTag schedule st).1 = expectedTag platforms getDownloadUrl answer commits.
Proof.
  intros Hanswer Hlist.
  unfold GetLatestTag.getLatestTag, bind. rewrite Hlist.
  pose proof (getFirstExistingCommit_find answer commits st1 Hanswer) as Hfind.
  destruct (getFirstExistingCommit commits st1) as [[commit| |] st2];
    simplify_eq/=.
  destruct (verify_run getProxyAgent fetch platforms getDownloadUrl
              (λ url b, b = answer url) schedule
              (List.find (λ c, answer (referenceUrl c)) commits) st2)
    as (exist & st3 & -> & Hurls & Hall & _).
  { intros url s b s' Hrun. pose proof (Hanswer url s) as Hb.
    rewrite Hrun in Hb. by simplify_eq/=. }
  rewrite aggregate_run. unfold expectedTag, missingMessage.
  rewrite <-Hurls, <-(missing_of_answers answer exist Hall).
  by destruct (missingAssets exist).
Qed.

End FetchEngineMore.

(** * Properties of [Doctor.ts] *)

Section DoctorFacts.

Import Doctor Report.

Context {Err : Type}.
Variable keyBy : ∀ T : Type, list T → (T → string) → string → option T.
Context {Picked : Type}.
Variable pick : Field.t → list string → Picked.
Variable equal : Picked → Picked → bool.
Variable bold_underline bold greenBright redBright : string → string.

Local Abbreviation printModelMessage :=
  (printModelMessage bold_underline bold greenBright redBright).
Local Abbreviation checkField := (checkField pick equal).
Local Abbreviation checkModel :=
  (checkModel keyBy pick equal bold_underline bold greenBright redBright).
Local Abbreviation compareModels :=
  (compareModels (Err := Err) keyBy pick equal
                 bold_underline bold greenBright redBright).
Local Abbreviation missingFieldLine := (missingFieldLine bold).
Local Abbreviation incorrectFieldText := (incorrectFieldText greenBright redBright).
Local Abbreviation differingField := (differingField pick equal).
Local Abbreviation inSync := (inSync keyBy pick equal).

Lemma string_app_assoc (s1 s2 s3 : string) :
  (s1 +:+ s2) +:+ s3 = s1 +:+ s2 +:+ s3.
Proof.
  induction s1 as [|c s1 IH]; [done|].
  change (String c ((s1 +:+ s2) +:+ s3) = String c (s1 +:+ s2 +:+ s3)).
  by rewrite IH.
Qed.

Lemma string_app_nil_r (s : string) : s +:+ "" = s.
Proof.
  induction s as [|c s IH]; [done|].
  change (String c (s +:+ "") = String c s). by rewrite IH.
Qed.

Lemma string_app_nonempty (s1 s2 : string) : s2 ≠ "" → s1 +:+ s2 ≠ "".
Proof. by destruct s1. Qed.

(** A loop of [msg += text(x)] appends the texts in order. *)
Lemma foldl_append {A} (text : A → string) (l : list A) (msg : string) :
  foldl (λ msg x, msg +:+ text x) msg l = msg +:+ String.concat "" (text <$> l).
Proof.
  revert msg. induction l as [|x l IH]; intros msg; simpl.
  - by rewrite string_app_nil_r.
  - rewrite IH, string_app_assoc. f_equal.
    destruct l as [|y l]; simpl; [by rewrite string_app_nil_r|done].
Qed.

(** *** [printModelMessage] *)

(** X10. [printModelMessage] returns [null] exactly when there is nothing to
    report. Otherwise the message is the styled name of the model on a line,
    the line for a missing model if it is missing, one line for each missing
    field in order, and then the texts for the fields of a different type in
    order, each put straight after the other with no line break. *)
Theorem printModelMessage_layout (model : Model.t) (missingModel : bool)
    (missingFields : list Field.t)
    (incorrectFieldType : list (Field.t * Field.t)) :
  printModelMessage model missingModel missingFields incorrectFieldType
  = if decide (missingModel = false ∧ missingFields = []
               ∧ incorrectFieldType = [])
    then None
    else Some (bold_underline (Model.name model) +:+ nl
               +:+ (if missingModel
                    then "↪ Model is missing in database" +:+ nl else "")
               +:+ String.concat "" (missingFieldLine <$> missingFields)
               +:+ String.concat "" (incorrectFieldText <$> incorrectFieldType)).
Proof.
  unfold Doctor.printModelMessage.
  destruct (negb missingModel && (length missingFields =? 0)%nat
            && (length incorrectFieldType =? 0)%nat) eqn:Hnone.
  - rewrite decide_True; [done|].
    apply andb_prop in Hnone as [Hnone H3]. apply andb_prop in Hnone as [H1 H2].
    apply Nat.eqb_eq, length_zero_iff_nil in H2, H3.
    by destruct missingModel.
  - rewrite decide_False.
    + f_equal.
      rewrite (foldl_append incorrectFieldText), (foldl_append missingFieldLine).
      destruct missingModel; rewrite ?string_app_assoc; done.
    + intros (-> & -> & ->). done.
Qed.

(** A message is never the empty string, so the test [if (msg)] lets through
    every message that is not [null]. *)
Lemma printModelMessage_truthy (model : Model.t) (missingModel : bool)
    (missingFields : list Field.t)
    (incorrectFieldType : list (Field.t * Field.t)) :
  truthy (printModelMessage model missingModel missingFields incorrectFieldType)
  = bool_decide (¬ (missingModel = false ∧ missingFields = []
                    ∧ incorrectFieldType = [])).
Proof.
  rewrite printModelMessage_layout. case_decide as H.
  - by rewrite bool_decide_eq_false_2 by tauto.
  - rewrite bool_decide_eq_true_2 by done. simpl.
    destruct (bold_underline (Model.name model) +:+ nl +:+ _) eqn:Hmsg; [|done].
    by apply string_app_nonempty in Hmsg.
Qed.

(** X11. The text for a field of a different type shows the remote field by
    its name and its list mark only: two remote fields with the same name
    and the same [isList] give the same message, whatever their types. *)
Theorem printModelMessage_remote_type_unseen (model : Model.t)
    (missingModel : bool) (missingFields : list Field.t)
    (incorrect incorrect' : list (Field.t * Field.t)) :
  Forall2 (λ p q, p.1 = q.1
                  ∧ Field.name p.2 = Field.name q.2
                  ∧ Field.isList p.2 = Field.isList q.2) incorrect incorrect' →
  printModelMessage model missingModel missingFields incorrect
  = printModelMessage model missingModel missingFields incorrect'.
Proof.
  intros Hsame. rewrite !printModelMessage_layout.
  assert (incorrectFieldText <$> incorrect = incorrectFieldText <$> incorrect')
    as ->.
  { induction Hsame as [|[l r] [l' r'] inc inc' (Hl & Hn & Hi) _ IH]; [done|].
    rewrite !fmap_cons, IH. f_equal. simpl in Hl, Hn, Hi. subst l'.
    unfold Report.incorrectFieldText, printField. simpl. by rewrite Hn, Hi. }
  destruct Hsame; [done|]. by rewrite !decide_False by (by intros (_ & _ & ?)).
Qed.

(** *** The comparison *)

Lemma checkField_loop (remoteFields : string → option Field.t)
    (fields missingFields : list Field.t)
    (incorrectFieldType : list (Field.t * Field.t)) :
  foldl (checkField remoteFields) (missingFields, incorrectFieldType) fields
  = (missingFields
       ++ filter (λ f, remoteFields (getFieldName f) = None) fields,
     incorrectFieldType ++ omap (differingField remoteFields) fields).
Proof.
  revert missingFields incorrectFieldType.
  induction fields as [|f fields IH]; intros mf inc; simpl.
  { by rewrite !app_nil_r. }
  rewrite filter_cons. unfold Report.differingField at 1.
  destruct (remoteFields (getFieldName f)) as [r|] eqn:Hr; simpl.
  - destruct (equal _ _); simpl; rewrite IH; [done|].
    by rewrite <-app_assoc.
  - rewrite IH. by rewrite <-app_assoc.
Qed.


Lemma omap_nil_iff {A B} (f : A → option B) (l : list A) :
  omap f l = [] ↔ ∀ x, x ∈ l → f x = None.
Proof.
  induction l as [|a l IH]; simpl.
  - split; [|done]. intros _ x Hx. by apply elem_of_nil in Hx.
  - destruct (f a) eqn:Ha; simpl.
    + split; [done|]. intros H. specialize (H a (list_elem_of_here _ _)).
      congruence.
    + rewrite IH. split.
      * intros H x Hx. apply elem_of_cons in Hx as [->|Hx]; auto.
      * intros H x Hx. apply H. by right.
Qed.

Lemma filter_nil_iff {A} (P : A → Prop) `{∀ x, Decision (P x)} (l : list A) :
  filter P l = [] ↔ ∀ x, x ∈ l → ¬ P x.
Proof.
  induction l as [|a l IH]; simpl.
  - split; [|done]. intros _ x Hx. by apply elem_of_nil in Hx.
  - rewrite filter_cons. case_decide as Ha.
    + split; [done|]. intros H'. by destruct (H' a (list_elem_of_here _ _)).
    + rewrite IH. split.
      * intros H' x Hx. apply elem_of_cons in Hx as [->|Hx]; auto.
      * intros H' x Hx. apply H'. by right.
Qed.

(** The message of a local model is [null] (and then not pushed) exactly
    when the model is in sync. *)
Lemma checkModel_truthy (remoteModels : list Model.t) (localModel : Model.t) :
  truthy (checkModel localModel
            (keyBy _ remoteModels modelKey (modelKey localModel))) = false
  ↔ inSync remoteModels localModel.
Proof.
  unfold Doctor.checkModel, Report.inSync.
  destruct (keyBy _ remoteModels modelKey (modelKey localModel))
    as [remoteModel|].
  - rewrite checkField_loop. simpl. rewrite printModelMessage_truthy.
    rewrite bool_decide_eq_false.
    split.
    + intros Hno. apply dec_stable in Hno as (_ & Hmissing & Hdiff).
      rewrite filter_nil_iff in Hmissing. rewrite omap_nil_iff in Hdiff.
      exists remoteModel. split; [done|]. intros f Hf.
      specialize (Hmissing f Hf). specialize (Hdiff f Hf).
      unfold Report.differingField in Hdiff.
      destruct (keyBy _ (Model.fields remoteModel) getFieldName
                  (getFieldName f)) as [r|]; [|done].
      exists r. split; [done|]. by destruct (equal _ _).
    + intros (r & [= <-] & Hall) Hno. apply Hno. split; [done|].
      rewrite filter_nil_iff, omap_nil_iff.
      split; intros f Hf; destruct (Hall f Hf) as (rf & Hrf & Heq).
      * by rewrite Hrf.
      * unfold Report.differingField. by rewrite Hrf, Heq.
  - rewrite printModelMessage_truthy. split; [|by intros (? & ? & _)].
    rewrite bool_decide_eq_false. intros Hno. exfalso. apply Hno.
    by intros (? & _).
Qed.

Lemma messages_loop (remoteModels : string → option Model.t)
    (localModels : list Model.t) (messages : list string) :
  foldl (λ messages pair,
           let msg := checkModel pair.1 pair.2 in
           if truthy msg then messages ++ [default "" msg] else messages)
        messages
        ((λ localModel, (localModel, remoteModels (modelKey localModel)))
           <$> localModels)
  = messages
      ++ omap (λ localModel,
                 let msg := checkModel localModel
                              (remoteModels (modelKey localModel)) in
                 if truthy msg then msg else None) localModels.
Proof.
  revert messages. induction localModels as [|m l IH]; intros messages; simpl.
  { by rewrite app_nil_r. }
  rewrite IH.
  destruct (checkModel m (remoteModels (modelKey m))) as [[|c msg]|]; simpl;
    [done| |done].
  by rewrite <-app_assoc.
Qed.

(** The message of a pair of models is never the empty string. *)
Lemma checkModel_nonempty (localModel : Model.t) (remoteModel : option Model.t) :
  checkModel localModel remoteModel ≠ Some "".
Proof.
  unfold Doctor.checkModel. intros Hc.
  destruct remoteModel as [r|].
  - destruct (foldl _ _ _) as [mf inc].
    rewrite printModelMessage_layout in Hc. case_decide; [done|].
    injection Hc as Hc. by apply string_app_nonempty in Hc.
  - rewrite printModelMessage_layout in Hc. case_decide; [done|].
    injection Hc as Hc. by apply string_app_nonempty in Hc.
Qed.


Lemma all_in_sync_fulfils (localModels remoteModels : list Model.t) :
  Forall (inSync remoteModels) localModels →
  compareModels localModels remoteModels = Fulfilled "Everything in sync 🔄".
Proof.
  intros Hall. unfold Doctor.compareModels. rewrite messages_loop. simpl.
  assert (omap (λ localModel,
                  if truthy (checkModel localModel
                               (keyBy _ remoteModels modelKey (modelKey localModel)))
                  then checkModel localModel
                         (keyBy _ remoteModels modelKey (modelKey localModel))
                  else None) localModels = []) as ->; [|done].
  apply omap_nil_iff. intros m Hm.
  rewrite Forall_forall in Hall. apply Hall, checkModel_truthy in Hm.
  by rewrite Hm.
Qed.

Lemma last_filter_unique {T} (f : T → string) (l : list T) (x : T) :
  NoDup (f <$> l) → x ∈ l → last (filter (λ y, f y = f x) l) = Some x.
Proof.
  induction l as [|a l IH]; intros Hdup Hx; [by apply elem_of_nil in Hx|].
  rewrite fmap_cons in Hdup. apply NoDup_cons in Hdup as [Ha Hdup].
  rewrite filter_cons. case_decide as Hfa.
  - assert (filter (λ y, f y = f x) l = []) as ->.
    { apply filter_nil_iff. intros y Hy Hfy. apply Ha. rewrite Hfa, <-Hfy.
      by apply list_elem_of_fmap_2. }
    apply elem_of_cons in Hx as [->|Hx]; [done|].
    exfalso. apply Ha. rewrite Hfa. by apply list_elem_of_fmap_2.
  - apply elem_of_cons in Hx as [->|Hx]; [done|]. by apply IH.
Qed.

(** X14. A schema compared with itself is in sync, provided [keyBy] keeps
    the last element of each key, [equal] accepts what [pick] takes from one
    and the same field, no two models have the same key and no two fields of
    a model the same name in the database. *)
Theorem compareModels_self (models : list Model.t) :
  (∀ T l f k, keyBy T l f k = last (filter (λ x, f x = k) l)) →
  (∀ f, equal (pick f ["type"; "isList"]) (pick f ["type"; "isList"]) = true) →
  NoDup (modelKey <$> models) →
  (∀ m, m ∈ models → NoDup (getFieldName <$> Model.fields m)) →
  compareModels models models = Fulfilled "Everything in sync 🔄".
Proof.
  intros HkeyBy Hrefl Hmodels Hfields. apply all_in_sync_fulfils.
  apply Forall_forall. intros m Hm. exists m. split.
  - rewrite HkeyBy. by apply last_filter_unique.
  - intros f Hf. exists f. split; [|done].
    rewrite HkeyBy. apply last_filter_unique; [by apply Hfields|done].
Qed.


End DoctorFacts.

(** ** The further properties in the small world *)

Section MoreFixtureFacts.

Import Fixture.

Local Abbreviation run published :=
  (getLatestTag getProxyAgent (fetch "c1 c2 c3" published) shasOfJson
                platforms getDownloadUrl).

Lemma fixture_answers (commits : string) (published : list string) :
  answersAs getProxyAgent (fetch commits published)
            (λ url, bool_decide (url ∈ published)).
Proof.
  intros url s. rewrite urlExists_run. simpl.
  by destruct (decide (url ∈ published));
    [rewrite bool_decide_eq_true_2|rewrite bool_decide_eq_false_2].
Qed.

Lemma fromEntries_lookup_witness :
  fromEntries [("etag", "x"); ("content-length", "10"); ("content-length", "12")]
    !! "content-length" = Some "12".
Proof.
  rewrite (fromEntries_lookup _ "content-length"); [reflexivity|done].
Defined.

Lemma urlExists_decimal_length_witness :
  (urlExists getProxyAgent (serve (mkResponse 200 [("content-length", "000")] ""))
             "u" start).1 = Fulfilled false.
Proof.
  rewrite (urlExists_decimal_length getProxyAgent
             (serve (mkResponse 200 [("content-length", "000")] ""))
             "u" start () (mkResponse 200 [("content-length", "000")] "")
             1%nat "000"); [reflexivity..| |].
  - done.
  - unfold JS.isDecimalDigit. compute_done.
Defined.

Lemma getFirstExistingCommit_find_witness :
  (getFirstExistingCommit getProxyAgent (fetch "" allOfC2) getDownloadUrl
     ["c1"; "c2"; "c3"] start).1 = Fulfilled (Some "c2").
Proof.
  rewrite (getFirstExistingCommit_find getProxyAgent (fetch "" allOfC2)
             getDownloadUrl (λ url, bool_decide (url ∈ allOfC2))
             ["c1"; "c2"; "c3"] start (fixture_answers "" allOfC2)).
  vm_compute. reflexivity.
Defined.

Lemma getLatestTag_upstream_failure_witness :
  (getLatestTag getProxyAgent offline shasOfJson platforms getDownloadUrl
                [] start).1 = Rejected (Thrown "ECONNREFUSED")
  ∧ probes (getLatestTag getProxyAgent offline shasOfJson platforms
                         getDownloadUrl [] start).2 = [].
Proof.
  destruct (getLatestTag_upstream_failure getProxyAgent offline shasOfJson
              platforms getDownloadUrl [] start) as [[Hthrows _] Hprobes].
  destruct Hthrows as (e & He).
  { right. left. by exists (), "ECONNREFUSED", 1%nat. }
  destruct (Hprobes e He) as [Hlist Hnone].
  split; [|exact Hnone]. rewrite He.
  vm_compute in Hlist. by injection Hlist as <-.
Defined.

Lemma getLatestTag_sound_witness :
  "c2" ∈ ["c1"; "c2"; "c3"]
  ∧ (referenceUrl getDownloadUrl "c2", true) ∈ probes (run allOfC2 [4; 1]%nat start).2
  ∧ ∀ ref, ref ∈ assetReferences platforms →
           (assetUrl getDownloadUrl (Some "c2") ref, true)
             ∈ probes (run allOfC2 [4; 1]%nat start).2.
Proof.
  destruct (run allOfC2 [4; 1]%nat start) as [r st'] eqn:Hrun. simpl.
  pose proof Hrun as Hresult. vm_compute in Hresult.
  injection Hresult as <- _.
  apply (getLatestTag_sound getProxyAgent (fetch "c1 c2 c3" allOfC2) shasOfJson
           platforms getDownloadUrl [4; 1]%nat start (mkState 1%nat [] []) st');
    [vm_compute; reflexivity|exact Hrun].
Defined.

Lemma getLatestTag_no_platform_witness :
  getLatestTag getProxyAgent (fetch "c1 c2 c3" []) shasOfJson
               ["freebsd"; "arm"; "netbsd"] getDownloadUrl [] start
  = (Fulfilled None,
     mkState 4%nat
       (console (getLatestTag getProxyAgent (fetch "c1 c2 c3" []) shasOfJson
                   ["freebsd"; "arm"; "netbsd"] getDownloadUrl [] start).2)
       [("https://binaries.example.com/engines/master/c1/darwin/query-engine.gz", false);
        ("https://binaries.example.com/engines/master/c2/darwin/query-engine.gz", false);
        ("https://binaries.example.com/engines/master/c3/darwin/query-engine.gz", false)]).
Proof.
  rewrite (getLatestTag_no_platform getProxyAgent (fetch "c1 c2 c3" []) shasOfJson
             ["freebsd"; "arm"; "netbsd"] getDownloadUrl [] start
             (mkState 1%nat [] []) ["c1"; "c2"; "c3"]).
  - vm_compute. reflexivity.
  - intros p Hp. revert p Hp. apply Forall_forall. compute_done.
  - vm_compute. reflexivity.
Defined.

Lemma getLatestTag_expected_witness :
  (run partOfC2 [9; 0; 30]%nat start).1
  = Rejected (Error "Could not get new tag, as some assets don't exist: https://binaries.example.com/engines/master/c2/darwin/migration-engine.gz, https://binaries.example.com/engines/master/c2/windows/prisma-fmt.sig").
Proof.
  rewrite (getLatestTag_expected getProxyAgent (fetch "c1 c2 c3" partOfC2)
             shasOfJson platforms getDownloadUrl
             (λ url, bool_decide (url ∈ partOfC2)) [9; 0; 30]%nat start
             (mkState 1%nat [] []) ["c1"; "c2"; "c3"]
             (fixture_answers "c1 c2 c3" partOfC2)).
  - vm_compute. reflexivity.
  - vm_compute. reflexivity.
Defined.

End MoreFixtureFacts.

(** ** The comparison on a small schema *)

Section DoctorExamples.

Import Doctor.

Local Abbreviation compare :=
  (compareModels (Err := Empty_set) keyByLast pickTypeIsList equalPair
                 plain plain plain plain).

(** The report of a schema against a database that lacks a column and a
    table and has a column of another type. *)
Example doctor_report :
  compare [localUser; localPost] [remoteUser; remoteAudit]
  = Rejected (Error (nl +:+ nl +:+ "User" +:+ nl
                     +:+ "↪ Field tags is missing in database" +:+ nl
                     +:+ "↪ Field id has type Intid locally, but id remote"
                     +:+ nl +:+ nl +:+ "Post" +:+ nl
                     +:+ "↪ Model is missing in database" +:+ nl)).
Proof. vm_compute. reflexivity. Qed.

(** With two fields of one name, a schema is not in sync with itself. *)
Example doctor_duplicate_fields :
  let m := Model.mk "T" None [Field.mk "a" None "Int" false;
                              Field.mk "a" None "String" false] in
  compare [m] [m]
  = Rejected (Error (nl +:+ nl +:+ "T" +:+ nl
                     +:+ "↪ Field a has type Inta locally, but a remote")).
Proof. vm_compute. reflexivity. Qed.

Lemma printModelMessage_remote_type_unseen_witness :
  printModelMessage plain plain plain plain localUser false []
    [(Field.mk "id" None "Int" false, Field.mk "id" None "String" false)]
  = printModelMessage plain plain plain plain localUser false []
      [(Field.mk "id" None "Int" false, Field.mk "id" (Some ["pk"]) "Bytes" false)].
Proof.
  apply printModelMessage_remote_type_unseen. by repeat constructor.
Defined.


Lemma compareModels_self_witness :
  compare [localUser; localPost] [localUser; localPost]
  = Fulfilled "Everything in sync 🔄".
Proof.
  apply compareModels_self.
  - done.
  - intros f. by apply bool_decide_eq_true_2.
  - compute_done.
  - apply Forall_forall. compute_done.
Defined.


End DoctorExamples.
